(** * fairscale/experimental/nn/distributed_pipeline/trace.py

    A shallow embedding of [GraphCreator.create_graph] and [_call_trace],
    and the properties of the trace-to-graph transformation.

    A [torch.fx] graph is a linked list of distinct [Node] objects, and the
    dictionaries of [create_graph] are keyed by node identity.  Here a node
    is identified with its position in [tracer.graph.nodes]; an argument that
    is a node refers to that position.  Module objects are identified by a
    number, the key of a store that holds, for each object, whether it is a
    [RemoteModule] and what [getattr] finds on it. *)

From Stdlib Require Import ZArith Lia Ascii String.
From stdpp Require Import base option list gmap strings.

Open Scope Z_scope.
Open Scope nat_scope.

(** ** Exceptions

    Every [assert] of the source raises the same [AssertionError]; the
    constructors below keep the failing statement apart, under the name the
    specification gives to that failure. *)

Inductive Error : Type :=
  | ModuleResolutionFailed  (* AttributeError in get_module, lines 29-30 *)
  | NotARemoteModule        (* assert isinstance(module, RemoteModule), line 40 *)
  | SelectionOnNonModule    (* the asserts of lines 44 and 46 *)
  | UnknownInput            (* ValueError of arg_names.index, line 49 *)
  | UnsupportedOperation    (* assert False, line 53 *)
  | MixedOutputAccess       (* the asserts of lines 62 and 68 *)
  | IndexError              (* node.args[0], node.args[1] out of range *)
  | KeyError                (* node_to_data[arg], lines 58 and 75 *)
  | TypeError.              (* output_num + 1 on a non-integer, lines 69, 71 *)

#[global] Instance Error_eq_dec : EqDecision Error.
Proof. solve_decision. Defined.

Definition Result (A : Type) : Type := (Error + A)%type.

Definition raise {A : Type} (e : Error) : Result A := inl e.
Definition ret {A : Type} (a : A) : Result A := inr a.
Definition bind {A B : Type} (c : Result A) (k : A -> Result B) : Result B :=
  match c with
  | inl e => inl e
  | inr a => k a
  end.

Notation "'let*' x ':=' c 'in' k" := (bind c (fun x => k))
  (at level 10, x pattern, c at level 200, k at level 200).

(** A [for] loop whose body may raise: the state is threaded from one
    element to the next and the first exception ends the loop. *)
Fixpoint for_each {A S : Type} (body : S -> A -> Result S) (l : list A) (s : S)
  : Result S :=
  match l with
  | [] => ret s
  | a :: l' => let* s' := body s a in for_each body l' s'
  end.

(** ** The trace *)

Inductive Target : Type :=
  | TStr (s : string)          (* a str: module path or placeholder name *)
  | TGetitem                   (* operator.__getitem__ *)
  | TCallable (name : string). (* any other callable *)

(** The elements of [node.args]: a node, or an immediate integer such as
    the index of a selection.  Immediate values of other Python types
    (floats, strings, slices, lists) are not part of this model, and no
    property below speaks of traces that hold one. *)
Inductive Argument : Type :=
  | ArgNode (n : nat)          (* the node at position n of graph.nodes *)
  | ArgInt (z : Z).            (* an immediate integer *)

Record Node : Type := mkNode {
  op : string;
  target : Target;
  args : list Argument
}.

#[global] Instance Target_eq_dec : EqDecision Target.
Proof. solve_decision. Defined.
#[global] Instance Argument_eq_dec : EqDecision Argument.
Proof. solve_decision. Defined.
#[global] Instance Node_eq_dec : EqDecision Node.
Proof. solve_decision. Defined.

(** ** Module objects *)

Record ModuleObject : Type := mkModuleObject {
  is_RemoteModule : bool;          (* isinstance(_, RemoteModule) *)
  attributes : gmap string nat     (* what getattr finds, by name *)
}.

Record RemoteModuleTracer : Type := mkTracer {
  root : nat;
  objects : gmap nat ModuleObject;
  graph : list Node                (* tracer.graph.nodes, in order *)
}.

(** [RemoteModuleTracer.is_leaf_module]: remote modules are not traced
    into. *)
Definition is_leaf_module (self : RemoteModuleTracer) (m : ModuleObject)
    (module_qualified_name : string) : bool :=
  if is_RemoteModule m then true else false.

Record GraphCreator : Type := mkGraphCreator {
  tracer : RemoteModuleTracer
}.

(** ** Resolved data sources

    [node_to_data] holds an [int], a [RemoteModule] or a pair
    [(module, index)]; the constructor names are the specification's. *)

Inductive DataSourceSpec : Type :=
  | ExternalInput (i : nat)
  | WholeModuleOutput (m : nat)
  | IndexedModuleOutput (m : nat) (output_num : Argument).

#[global] Instance DataSourceSpec_eq_dec : EqDecision DataSourceSpec.
Proof. solve_decision. Defined.

(** Modelled from the spec: [PipelineModulesGraph] and its [add_layer] are
    imported from the package and are not part of these sources.  A graph is
    the ordered collection of its layers, and [add_layer] appends one layer:
    module identity, resolved inputs, output arity ([None] is "single"). *)
Record Layer : Type := mkLayer {
  layer_module : nat;
  layer_inputs : list DataSourceSpec;
  layer_num_outputs : option Z
}.

Definition PipelineModulesGraph : Type := list Layer.

Definition add_layer (g : PipelineModulesGraph) (module : nat)
    (inputs : list DataSourceSpec) (num_outputs : option Z)
  : PipelineModulesGraph :=
  g ++ [mkLayer module inputs num_outputs].

(** ** [str.split] on a one-character separator *)

Fixpoint split (sep : Ascii.ascii) (s : string) : list string :=
  match s with
  | EmptyString => [EmptyString]
  | String c s' =>
      if Ascii.eqb c sep then EmptyString :: split sep s'
      else match split sep s' with
           | [] => [String c EmptyString]
           | w :: ws => String c w :: ws
           end
  end.

(** ** [GraphCreator.get_module] *)

Definition getattr (objs : gmap nat ModuleObject) (module : nat) (t : string)
  : Result nat :=
  match objs !! module ≫= (fun o => attributes o !! t) with
  | Some child => ret child
  | None => raise ModuleResolutionFailed
  end.

Definition get_module (self : GraphCreator) (node : Node) : Result (option nat) :=
  if decide (op node = "call_module") then
    match target node with
    | TStr path =>
        let* module := for_each (getattr (objects (tracer self)))
                         (split "." path) (root (tracer self)) in
        ret (Some module)
    | _ => raise ModuleResolutionFailed
    end
  else ret None.

Definition isinstance_RemoteModule (self : GraphCreator) (module : option nat)
  : bool :=
  match module ≫= (fun m => objects (tracer self) !! m) with
  | Some o => is_RemoteModule o
  | None => false
  end.

(** ** [GraphCreator.create_graph]: the first loop (lines 37-53) *)

(** The branch a node takes in the chain of tests of lines 38-52. *)
Inductive NodeKind : Type :=
  | ModuleCall | SelectElement | Placeholder | Output | Unsupported.

Definition node_kind (node : Node) : NodeKind :=
  if decide (op node = "call_module") then ModuleCall
  else if decide (target node = TGetitem ∧ op node = "call_function")
       then SelectElement
  else if decide (op node = "placeholder") then Placeholder
  else if decide (op node = "output") then Output
  else Unsupported.

(** [node_to_data[arg]], when [arg in node_to_data]. *)
Definition lookup_arg (node_to_data : gmap nat DataSourceSpec) (arg : Argument)
  : option DataSourceSpec :=
  match arg with
  | ArgNode n => node_to_data !! n
  | ArgInt _ => None
  end.

(** [arg_names.index(target)]. *)
Definition index (arg_names : list string) (t : Target) : Result nat :=
  match list_find (fun name => TStr name = t) arg_names with
  | Some (i, _) => ret i
  | None => raise UnknownInput
  end.

(** The two dictionaries of the first loop; [node_to_module] keeps its
    insertion order, which is the order its keys are iterated in. *)
Definition ResolveState : Type :=
  (gmap nat DataSourceSpec * list (Node * nat))%type.

Definition resolve_node (self : GraphCreator) (arg_names : list string)
    (st : ResolveState) (entry : nat * Node) : Result ResolveState :=
  let '(node_to_data, node_to_module) := st in
  let '(i, node) := entry in
  match node_kind node with
  | ModuleCall =>
      let* module := get_module self node in
      if isinstance_RemoteModule self module then
        match module with
        | Some m => ret (<[i := WholeModuleOutput m]> node_to_data,
                         node_to_module ++ [(node, m)])
        | None => raise NotARemoteModule
        end
      else raise NotARemoteModule
  | SelectElement =>
      match args node with
      | [] => raise IndexError
      | a0 :: rest =>
          match lookup_arg node_to_data a0 with
          | None => raise SelectionOnNonModule
          | Some (WholeModuleOutput d) =>
              match rest with
              | [] => raise IndexError
              | a1 :: _ =>
                  ret (<[i := IndexedModuleOutput d a1]> node_to_data,
                       node_to_module)
              end
          | Some _ => raise SelectionOnNonModule
          end
      end
  | Placeholder =>
      let* k := index arg_names (target node) in
      ret (<[i := ExternalInput k]> node_to_data, node_to_module)
  | Output => ret st
  | Unsupported => raise UnsupportedOperation
  end.

(** The nodes of a list paired with their positions, counted from [i]. *)
Definition enumerate {A : Type} (i : nat) (l : list A) : list (nat * A) :=
  zip (seq i (length l)) l.

Definition resolve_nodes (self : GraphCreator) (arg_names : list string)
  : Result ResolveState :=
  for_each (resolve_node self arg_names)
    (enumerate 0 (graph (tracer self))) (∅, []).

(** ** The second loop (lines 55-71) *)

Definition count_argument (node_to_data : gmap nat DataSourceSpec)
    (module_to_num_outputs : gmap nat (option Z)) (arg : Argument)
  : Result (gmap nat (option Z)) :=
  match lookup_arg node_to_data arg with
  | None => raise KeyError
  | Some (ExternalInput _) => ret module_to_num_outputs
  | Some (WholeModuleOutput m) =>
      match module_to_num_outputs !! m with
      | Some (Some _) => raise MixedOutputAccess
      | _ => ret (<[m := None]> module_to_num_outputs)
      end
  | Some (IndexedModuleOutput m output_num) =>
      match module_to_num_outputs !! m with
      | Some prev_value =>
          match prev_value with
          | None => raise MixedOutputAccess
          | Some p =>
              match output_num with
              | ArgInt z =>
                  ret (<[m := Some (Z.max p (z + 1))]> module_to_num_outputs)
              | ArgNode _ => raise TypeError
              end
          end
      | None =>
          match output_num with
          | ArgInt z => ret (<[m := Some (z + 1)%Z]> module_to_num_outputs)
          | ArgNode _ => raise TypeError
          end
      end
  end.

Definition count_outputs (node_to_data : gmap nat DataSourceSpec)
    (node_to_module : list (Node * nat)) : Result (gmap nat (option Z)) :=
  for_each
    (fun module_to_num_outputs entry =>
       for_each (count_argument node_to_data) (args (fst entry))
         module_to_num_outputs)
    node_to_module ∅.

(** ** The third loop (lines 73-76) *)

Fixpoint make_inputs (node_to_data : gmap nat DataSourceSpec)
    (l : list Argument) : Result (list DataSourceSpec) :=
  match l with
  | [] => ret []
  | arg :: l' =>
      match lookup_arg node_to_data arg with
      | None => raise KeyError
      | Some d => let* ds := make_inputs node_to_data l' in ret (d :: ds)
      end
  end.

Definition add_layers (node_to_data : gmap nat DataSourceSpec)
    (module_to_num_outputs : gmap nat (option Z))
    (node_to_module : list (Node * nat)) : Result PipelineModulesGraph :=
  for_each
    (fun g entry =>
       let* inputs := make_inputs node_to_data (args (fst entry)) in
       ret (add_layer g (snd entry) inputs
              (mjoin (module_to_num_outputs !! snd entry))))
    node_to_module [].

(** The three loops in sequence.  The debug printing of lines 78-79 does not
    change the graph and is left out. *)
Definition create_graph (self : GraphCreator) (arg_names : list string)
  : Result PipelineModulesGraph :=
  let* (node_to_data, node_to_module) := resolve_nodes self arg_names in
  let* module_to_num_outputs := count_outputs node_to_data node_to_module in
  add_layers node_to_data module_to_num_outputs node_to_module.

(** ** [_call_trace] (lines 84-93)

    The class attributes [RemoteModule.named_modules] and
    [RemoteModule.named_children] are global mutable state.  The interpreter
    state holds them, the two methods of [nn.Module] that the override
    installs, and everything else.  [tracer.trace] is the external tracing
    facility: it runs on the state, may change any of it, and either returns
    a graph or raises. *)

Section CallTrace.
Context {Method Heap Exception FxGraph Tracer Module : Type}.

Record World : Type := mkWorld {
  RemoteModule_named_modules : Method;
  RemoteModule_named_children : Method;
  nn_Module_named_modules : Method;
  nn_Module_named_children : Method;
  heap : Heap
}.

Definition set_named_modules (v : Method) (w : World) : World :=
  mkWorld v (RemoteModule_named_children w)
    (nn_Module_named_modules w) (nn_Module_named_children w) (heap w).

Definition set_named_children (v : Method) (w : World) : World :=
  mkWorld (RemoteModule_named_modules w) v
    (nn_Module_named_modules w) (nn_Module_named_children w) (heap w).

(** [try: body finally: final]: the [finally] block runs on the state the
    body leaves, whether the body returned or raised, and the outcome of
    the body is then returned or raised again. *)
Definition try_finally {A : Type}
    (body : World -> (Exception + A) * World) (final : World -> World)
    (w : World) : (Exception + A) * World :=
  match body w with
  | (inr a, w') => (inr a, final w')
  | (inl exc, w') => (inl exc, final w')
  end.

Variable trace : Tracer -> Module -> World -> (Exception + FxGraph) * World.

(** The two original methods are read first; reading a class attribute
    does not raise, so it makes no difference that the source does it inside
    the [try]. *)
Definition _call_trace (tracer : Tracer) (module : Module) (w : World)
  : (Exception + FxGraph) * World :=
  let org_named_modules := RemoteModule_named_modules w in
  let org_named_children := RemoteModule_named_children w in
  try_finally
    (fun w =>
       let w := set_named_modules (nn_Module_named_modules w) w in
       let w := set_named_children (nn_Module_named_children w) w in
       trace tracer module w)
    (fun w =>
       let w := set_named_modules org_named_modules w in
       set_named_children org_named_children w)
    w.

(** The state on which [tracer.trace] runs: both overrides installed. *)
Definition overridden (w : World) : World :=
  let w := set_named_modules (nn_Module_named_modules w) w in
  set_named_children (nn_Module_named_children w) w.
End CallTrace.

(** ** Vocabulary of the properties *)

#[global] Instance NodeKind_eq_dec : EqDecision NodeKind.
Proof. solve_decision. Defined.

(** The arguments of the recorded module calls, in the order in which the
    second loop visits them, and what they resolve to. *)
Definition call_arguments (node_to_module : list (Node * nat)) : list Argument :=
  concat (map (fun entry => args (fst entry)) node_to_module).

Definition argument_data (node_to_data : gmap nat DataSourceSpec)
    (node_to_module : list (Node * nat)) : list DataSourceSpec :=
  omap (lookup_arg node_to_data) (call_arguments node_to_module).

(** The integer indices at which the result of [m] is selected. *)
Definition selection_index (m : nat) (d : DataSourceSpec) : option Z :=
  match d with
  | IndexedModuleOutput m' (ArgInt z) => if decide (m' = m) then Some z else None
  | _ => None
  end.

Definition selection_indices (m : nat) (ds : list DataSourceSpec) : list Z :=
  omap (selection_index m) ds.

(** An argument that is a resolved node and, when it is a selection, has an
    integer index: the second loop raises neither [KeyError] nor
    [TypeError] on it. *)
Definition well_resolved (node_to_data : gmap nat DataSourceSpec)
    (arg : Argument) : bool :=
  match lookup_arg node_to_data arg with
  | None => false
  | Some (IndexedModuleOutput _ (ArgNode _)) => false
  | Some _ => true
  end.

(** A data source that mentions module [m], whole or indexed. *)
Definition references (m : nat) (d : DataSourceSpec) : bool :=
  match d with
  | ExternalInput _ => false
  | WholeModuleOutput m' => bool_decide (m' = m)
  | IndexedModuleOutput m' _ => bool_decide (m' = m)
  end.

(** The data sources passed to one recorded call. *)
Definition data_of_call (node_to_data : gmap nat DataSourceSpec)
    (entry : Node * nat) : list DataSourceSpec :=
  omap (lookup_arg node_to_data) (args (fst entry)).

(** No recorded call other than the one at position [k] of
    [node_to_module] is passed a result of module [m]. *)
Definition unreferenced_by_others (node_to_data : gmap nat DataSourceSpec)
    (node_to_module : list (Node * nat)) (k m : nat) : Prop :=
  forall k' entry d, k' <> k -> node_to_module !! k' = Some entry ->
    d ∈ data_of_call node_to_data entry -> references m d = false.

(** The state of one module in [module_to_num_outputs], read against the
    data sources seen so far: absent when the module was never mentioned,
    [None] when it was only used whole, and one more than the largest
    selection index when it was only selected. *)
Definition arity_inv (m : nat) (ds : list DataSourceSpec)
    (s : option (option Z)) : Prop :=
  match s with
  | None =>
      (WholeModuleOutput m ∉ ds) /\ (forall a, IndexedModuleOutput m a ∉ ds)
  | Some None =>
      (WholeModuleOutput m ∈ ds) /\ (forall a, IndexedModuleOutput m a ∉ ds)
  | Some (Some c) =>
      (WholeModuleOutput m ∉ ds)
      /\ (forall a, IndexedModuleOutput m a ∈ ds -> exists z, a = ArgInt z)
      /\ exists z zs, selection_indices m ds = z :: zs
           /\ c = (1 + foldl Z.max z zs)%Z
  end.

(** The layer the third loop adds for one recorded call. *)
Definition layer_of (nd : gmap nat DataSourceSpec) (mp : gmap nat (option Z))
    (entry : Node * nat) (layer : Layer) : Prop :=
  layer_module layer = snd entry
  /\ make_inputs nd (args (fst entry)) = inr (layer_inputs layer)
  /\ layer_num_outputs layer = mjoin (mp !! snd entry).

(** ** Vocabulary of the further properties *)

(** [sep.join(l)]. *)
Fixpoint join (sep : string) (l : list string) : string :=
  match l with
  | [] => EmptyString
  | [w] => w
  | w :: l' => (w ++ sep ++ join sep l')%string
  end.

(** The characters of a string. *)
Fixpoint chars (s : string) : list Ascii.ascii :=
  match s with
  | EmptyString => []
  | String c s' => c :: chars s'
  end.

(** The arguments on which the second loop runs to its end: each is a
    resolved node, each selection index is an integer, and no module is
    passed both whole and selected. *)
Definition consistent_uses (node_to_data : gmap nat DataSourceSpec)
    (l : list Argument) : Prop :=
  Forall (fun arg => well_resolved node_to_data arg = true) l
  /\ forall m a,
       ~ (WholeModuleOutput m ∈ omap (lookup_arg node_to_data) l
          /\ IndexedModuleOutput m a ∈ omap (lookup_arg node_to_data) l).

(** What [node_to_data] must hold for the node at position [pos], by the
    kind of the node, once the first loop has run to its end. *)
Definition node_entry (self : GraphCreator) (arg_names : list string)
    (node_to_data : gmap nat DataSourceSpec) (pos : nat) (node : Node)
    (e : option DataSourceSpec) : Prop :=
  match node_kind node with
  | ModuleCall =>
      exists m, get_module self node = inr (Some m)
        /\ e = Some (WholeModuleOutput m)
  | SelectElement =>
      exists n a1 rest m, args node = ArgNode n :: a1 :: rest /\ n < pos
        /\ node_to_data !! n = Some (WholeModuleOutput m)
        /\ e = Some (IndexedModuleOutput m a1)
  | Placeholder =>
      exists i, index arg_names (target node) = inr i
        /\ e = Some (ExternalInput i)
  | Output => e = None
  | Unsupported => False
  end.

(** The kind of node at which the first loop raises each exception; the
    exceptions of the second loop have none. *)
Definition raising_kind (e : Error) : option NodeKind :=
  match e with
  | ModuleResolutionFailed | NotARemoteModule => Some ModuleCall
  | SelectionOnNonModule | IndexError => Some SelectElement
  | UnknownInput => Some Placeholder
  | UnsupportedOperation => Some Unsupported
  | MixedOutputAccess | KeyError | TypeError => None
  end.

(** ** Sample models and traces

    A local root module with three remote children [a], [b] and [c]. *)

Definition sample_objects : gmap nat ModuleObject :=
  list_to_map
    [ (0, mkModuleObject false (list_to_map [("a", 1); ("b", 2); ("c", 3)]));
      (1, mkModuleObject true ∅);
      (2, mkModuleObject true ∅);
      (3, mkModuleObject true ∅) ].

Definition creator (nodes : list Node) : GraphCreator :=
  mkGraphCreator (mkTracer 0 sample_objects nodes).

(** [y = a(x); return b(y[0], y[1])]. *)
Definition trace_select_01 : list Node :=
  [ mkNode "placeholder" (TStr "x") [];
    mkNode "call_module" (TStr "a") [ArgNode 0];
    mkNode "call_function" TGetitem [ArgNode 1; ArgInt 0];
    mkNode "call_function" TGetitem [ArgNode 1; ArgInt 1];
    mkNode "call_module" (TStr "b") [ArgNode 2; ArgNode 3];
    mkNode "output" (TStr "output") [ArgNode 4] ].

(** [y = a(x); return b(y[0], y[2])]. *)
Definition trace_select_02 : list Node :=
  [ mkNode "placeholder" (TStr "x") [];
    mkNode "call_module" (TStr "a") [ArgNode 0];
    mkNode "call_function" TGetitem [ArgNode 1; ArgInt 0];
    mkNode "call_function" TGetitem [ArgNode 1; ArgInt 2];
    mkNode "call_module" (TStr "b") [ArgNode 2; ArgNode 3];
    mkNode "output" (TStr "output") [ArgNode 4] ].

(** [y = a(x); z = b(y); return c(y[0])]: whole use first. *)
Definition trace_whole_then_indexed : list Node :=
  [ mkNode "placeholder" (TStr "x") [];
    mkNode "call_module" (TStr "a") [ArgNode 0];
    mkNode "call_module" (TStr "b") [ArgNode 1];
    mkNode "call_function" TGetitem [ArgNode 1; ArgInt 0];
    mkNode "call_module" (TStr "c") [ArgNode 3];
    mkNode "output" (TStr "output") [ArgNode 4] ].

(** [y = a(x); z = b(y[0]); return c(y)]: indexed use first. *)
Definition trace_indexed_then_whole : list Node :=
  [ mkNode "placeholder" (TStr "x") [];
    mkNode "call_module" (TStr "a") [ArgNode 0];
    mkNode "call_function" TGetitem [ArgNode 1; ArgInt 0];
    mkNode "call_module" (TStr "b") [ArgNode 2];
    mkNode "call_module" (TStr "c") [ArgNode 1];
    mkNode "output" (TStr "output") [ArgNode 4] ].

(** [y = a(x); return b(7, y, y[0])]: a module call with a constant. *)
Definition trace_constant_argument : list Node :=
  [ mkNode "placeholder" (TStr "x") [];
    mkNode "call_module" (TStr "a") [ArgNode 0];
    mkNode "call_function" TGetitem [ArgNode 1; ArgInt 0];
    mkNode "call_module" (TStr "b") [ArgInt 7; ArgNode 1; ArgNode 2];
    mkNode "output" (TStr "output") [ArgNode 3] ].

(** [return relu(x)], traced with a placeholder [x] that is not declared. *)
Definition trace_unknown_then_unsupported : list Node :=
  [ mkNode "placeholder" (TStr "x") [];
    mkNode "call_function" (TCallable "relu") [ArgNode 0];
    mkNode "output" (TStr "output") [ArgNode 1] ].

(** [return relu(a(x))]. *)
Definition trace_unsupported : list Node :=
  [ mkNode "placeholder" (TStr "x") [];
    mkNode "call_module" (TStr "a") [ArgNode 0];
    mkNode "call_function" (TCallable "relu") [ArgNode 1];
    mkNode "output" (TStr "output") [ArgNode 2] ].

(** [y = a(x); return a(y[0])]: the same module called twice. *)
Definition trace_module_twice : list Node :=
  [ mkNode "placeholder" (TStr "x") [];
    mkNode "call_module" (TStr "a") [ArgNode 0];
    mkNode "call_function" TGetitem [ArgNode 1; ArgInt 0];
    mkNode "call_module" (TStr "a") [ArgNode 2];
    mkNode "output" (TStr "output") [ArgNode 3] ].

(** [y = a(x); return y[0]]: the selection only feeds the output. *)
Definition trace_select_to_output : list Node :=
  [ mkNode "placeholder" (TStr "x") [];
    mkNode "call_module" (TStr "a") [ArgNode 0];
    mkNode "call_function" TGetitem [ArgNode 1; ArgInt 0];
    mkNode "output" (TStr "output") [ArgNode 2] ].

(** [return b(a(x))]: no selection at all. *)
Definition trace_chain : list Node :=
  [ mkNode "placeholder" (TStr "x") [];
    mkNode "call_module" (TStr "a") [ArgNode 0];
    mkNode "call_module" (TStr "b") [ArgNode 1];
    mkNode "output" (TStr "output") [ArgNode 2] ].

(** Two uses of the result of one module that the second loop refuses
    together: one whole, the other selected. *)
Definition conflicting (d d' : DataSourceSpec) : Prop :=
  match d, d' with
  | WholeModuleOutput m, IndexedModuleOutput m' _
  | IndexedModuleOutput m' _, WholeModuleOutput m => m = m'
  | _, _ => False
  end.

(** [y = a(x); return b(y) + c(y[0])]: both uses, then an addition. *)
Definition trace_mixed_then_add : list Node :=
  [ mkNode "placeholder" (TStr "x") [];
    mkNode "call_module" (TStr "a") [ArgNode 0];
    mkNode "call_module" (TStr "b") [ArgNode 1];
    mkNode "call_function" TGetitem [ArgNode 1; ArgInt 0];
    mkNode "call_module" (TStr "c") [ArgNode 3];
    mkNode "call_function" (TCallable "add") [ArgNode 2; ArgNode 4];
    mkNode "output" (TStr "output") [ArgNode 5] ].

(** [y = a(x); return b(y, y[0], 7)]: both uses, then a constant. *)
Definition trace_mixed_then_constant : list Node :=
  [ mkNode "placeholder" (TStr "x") [];
    mkNode "call_module" (TStr "a") [ArgNode 0];
    mkNode "call_function" TGetitem [ArgNode 1; ArgInt 0];
    mkNode "call_module" (TStr "b") [ArgNode 1; ArgNode 2; ArgInt 7];
    mkNode "output" (TStr "output") [ArgNode 3] ].

(** [forward(x, w): return a(x[0])], traced with [w] not declared. *)
Definition trace_undeclared_then_select : list Node :=
  [ mkNode "placeholder" (TStr "x") [];
    mkNode "placeholder" (TStr "w") [];
    mkNode "call_function" TGetitem [ArgNode 0; ArgInt 0];
    mkNode "call_module" (TStr "a") [ArgNode 2];
    mkNode "output" (TStr "output") [ArgNode 3] ].

(** [forward(x): return a(x[0])]: a selection on an external input. *)
Definition trace_select_on_input : list Node :=
  [ mkNode "placeholder" (TStr "x") [];
    mkNode "call_function" TGetitem [ArgNode 0; ArgInt 0];
    mkNode "call_module" (TStr "a") [ArgNode 1];
    mkNode "output" (TStr "output") [ArgNode 2] ].

(** ** The error monad and the loops *)

Lemma bind_inr {A B : Type} (c : Result A) (k : A -> Result B) (b : B) :
  bind c k = inr b <-> exists a, c = inr a /\ k a = inr b.
Proof.
  destruct c as [e|a]; simpl; split.
  - discriminate.
  - intros (a & Ha & _). discriminate.
  - eauto.
  - intros (a' & Ha & Hk). congruence.
Qed.

Lemma bind_inl {A B : Type} (c : Result A) (k : A -> Result B) (e : Error) :
  bind c k = inl e <-> c = inl e \/ exists a, c = inr a /\ k a = inl e.
Proof.
  destruct c as [e'|a]; simpl; split.
  - intros [= ->]. by left.
  - intros [[= ->]|(a & Ha & _)]; [done | discriminate].
  - intros H. right. eauto.
  - intros [H|(a' & Ha & Hk)]; [discriminate | congruence].
Qed.

Lemma for_each_app {A S : Type} (body : S -> A -> Result S) (l1 l2 : list A) (s : S) :
  for_each body (l1 ++ l2) s = bind (for_each body l1 s) (for_each body l2).
Proof.
  revert s. induction l1 as [|a l1 IH]; intros s; simpl; [done|].
  destruct (body s a) as [e|s']; simpl; [done|]. apply IH.
Qed.

Lemma for_each_concat {A B S : Type} (body : S -> A -> Result S)
    (f : B -> list A) (l : list B) (s : S) :
  for_each (fun s' b => for_each body (f b) s') l s
  = for_each body (concat (map f l)) s.
Proof.
  revert s. induction l as [|b l IH]; intros s; simpl; [done|].
  rewrite for_each_app.
  destruct (for_each body (f b) s) as [e|s']; simpl; [done|]. apply IH.
Qed.

Lemma count_outputs_flat nd nm :
  count_outputs nd nm = for_each (count_argument nd) (call_arguments nm) ∅.
Proof. apply for_each_concat. Qed.

Lemma enumerate_cons {A : Type} (i : nat) (a : A) (l : list A) :
  enumerate i (a :: l) = (i, a) :: enumerate (S i) l.
Proof. reflexivity. Qed.

Lemma enumerate_app {A : Type} (i : nat) (l1 l2 : list A) :
  enumerate i (l1 ++ l2) = enumerate i l1 ++ enumerate (i + length l1) l2.
Proof.
  revert i. induction l1 as [|a l1 IH]; intros i.
  - change (enumerate i l2 = enumerate (i + 0) l2). by rewrite Nat.add_0_r.
  - rewrite <- app_comm_cons, !enumerate_cons, IH.
    change (length (a :: l1)) with (S (length l1)).
    by rewrite Nat.add_succ_r.
Qed.

(** The first loop, cut at a node: the nodes before it are resolved, then
    the node itself, then the rest. *)
Lemma resolve_nodes_split self arg_names pre node post :
  graph (tracer self) = pre ++ node :: post ->
  resolve_nodes self arg_names =
  let* st := for_each (resolve_node self arg_names) (enumerate 0 pre) (∅, []) in
  let* st' := resolve_node self arg_names st (length pre, node) in
  for_each (resolve_node self arg_names) (enumerate (S (length pre)) post) st'.
Proof.
  intros Hg. unfold resolve_nodes. rewrite Hg, enumerate_app, for_each_app.
  by rewrite enumerate_cons.
Qed.

Lemma create_graph_resolve_error self arg_names e :
  resolve_nodes self arg_names = inl e -> create_graph self arg_names = inl e.
Proof. intros H. unfold create_graph. by rewrite H. Qed.

(** ** The first loop *)

(** What a successful step of the first loop did, by the kind of the node. *)
Lemma resolve_node_inr self arg_names nd nm i node nd' nm' :
  resolve_node self arg_names (nd, nm) (i, node) = inr (nd', nm') ->
  match node_kind node with
  | ModuleCall =>
      exists m, get_module self node = inr (Some m)
        /\ isinstance_RemoteModule self (Some m) = true
        /\ nd' = <[i := WholeModuleOutput m]> nd /\ nm' = nm ++ [(node, m)]
  | SelectElement =>
      exists a0 a1 rest d, args node = a0 :: a1 :: rest
        /\ lookup_arg nd a0 = Some (WholeModuleOutput d)
        /\ nd' = <[i := IndexedModuleOutput d a1]> nd /\ nm' = nm
  | Placeholder =>
      exists k, index arg_names (target node) = inr k
        /\ nd' = <[i := ExternalInput k]> nd /\ nm' = nm
  | Output => nd' = nd /\ nm' = nm
  | Unsupported => False
  end.
Proof.
  unfold resolve_node, raise, ret. destruct (node_kind node).
  - destruct (get_module self node) as [e|[m|]]; simpl; try discriminate.
    destruct (isinstance_RemoteModule self (Some m)) eqn:Hr; [|discriminate].
    intros [= <- <-]. by exists m.
  - destruct (args node) as [|a0 rest]; [discriminate|].
    destruct (lookup_arg nd a0) as [[k|d|d a]|] eqn:Hl; try discriminate.
    destruct rest as [|a1 rest]; [discriminate|].
    intros [= <- <-]. by exists a0, a1, rest, d.
  - destruct (index arg_names (target node)) as [e|k]; simpl; [discriminate|].
    intros [= <- <-]. by exists k.
  - by intros [= <- <-].
  - discriminate.
Qed.

(** Reading a map at [k] just after an assignment at [i]. *)
Ltac insert_cases i k :=
  destruct (decide (i = k)) as [->|?];
  [rewrite lookup_insert_eq | rewrite lookup_insert_ne by done].

Section FirstLoop.
Variable self : GraphCreator.
Variable arg_names : list string.

(** The recorded calls are the [call_module] nodes, in trace order, each
    with the remote module its target names. *)
Lemma resolve_loop_calls l : forall i nd nm nd' nm',
  for_each (resolve_node self arg_names) (enumerate i l) (nd, nm) = inr (nd', nm') ->
  exists calls, nm' = nm ++ calls
    /\ map fst calls = filter (fun n => node_kind n = ModuleCall) l
    /\ Forall (fun entry =>
                 get_module self (fst entry) = inr (Some (snd entry))
                 /\ isinstance_RemoteModule self (Some (snd entry)) = true)
              calls.
Proof.
  induction l as [|node l IH]; intros i nd nm nd' nm'.
  - intros [= <- <-]. exists []. by rewrite app_nil_r.
  - rewrite enumerate_cons. simpl. intros H.
    apply bind_inr in H as ([nd1 nm1] & Hstep & Hrest).
    apply resolve_node_inr in Hstep.
    apply IH in Hrest as (calls & -> & Hmap & Hall).
    rewrite filter_cons.
    destruct (node_kind node) eqn:Hk.
    + destruct Hstep as (m & Hm & Hr & -> & ->).
      exists ((node, m) :: calls). rewrite decide_True by done.
      split_and!; [by rewrite <- app_assoc | simpl; by rewrite Hmap |].
      by constructor.
    + destruct Hstep as (? & ? & ? & ? & _ & _ & _ & ->).
      exists calls. by rewrite decide_False.
    + destruct Hstep as (? & _ & _ & ->).
      exists calls. by rewrite decide_False.
    + destruct Hstep as [_ ->]. exists calls. by rewrite decide_False.
    + done.
Qed.

(** Only [SelectElement] nodes resolve to an indexed module output. *)
Lemma resolve_loop_no_select l : forall i nd nm nd' nm',
  for_each (resolve_node self arg_names) (enumerate i l) (nd, nm) = inr (nd', nm') ->
  Forall (fun n => node_kind n <> SelectElement) l ->
  (forall k m a, nd !! k <> Some (IndexedModuleOutput m a)) ->
  forall k m a, nd' !! k <> Some (IndexedModuleOutput m a).
Proof.
  induction l as [|node l IH]; intros i nd nm nd' nm'.
  - by intros [= <- <-].
  - rewrite enumerate_cons. simpl. intros H Hall Hnd.
    apply bind_inr in H as ([nd1 nm1] & Hstep & Hrest).
    apply resolve_node_inr in Hstep. inversion Hall as [|? ? Hk Hl]; subst.
    eapply IH; [exact Hrest | exact Hl |].
    intros k m a.
    destruct (node_kind node) eqn:Hkind; try done.
    + destruct Hstep as (m' & _ & _ & -> & _).
      insert_cases i k; [done | apply Hnd].
    + destruct Hstep as (k' & _ & -> & _).
      insert_cases i k; [done | apply Hnd].
    + destruct Hstep as [-> _]. apply Hnd.
Qed.

(** Every module that [node_to_data] mentions has a recorded call. *)
Lemma resolve_loop_modules l : forall i nd nm nd' nm',
  for_each (resolve_node self arg_names) (enumerate i l) (nd, nm) = inr (nd', nm') ->
  (forall k d m, nd !! k = Some d -> references m d = true ->
                 m ∈ map snd nm) ->
  forall k d m, nd' !! k = Some d -> references m d = true ->
                m ∈ map snd nm'.
Proof.
  induction l as [|node l IH]; intros i nd nm nd' nm'.
  - by intros [= <- <-].
  - rewrite enumerate_cons. simpl. intros H Hnd.
    apply bind_inr in H as ([nd1 nm1] & Hstep & Hrest).
    apply resolve_node_inr in Hstep.
    eapply IH; [exact Hrest|]. clear Hrest IH. intros k d m.
    destruct (node_kind node) eqn:Hkind; try done.
    + destruct Hstep as (m' & _ & _ & -> & ->).
      rewrite map_app, elem_of_app. simpl. insert_cases i k.
      * intros [= <-]. simpl.
        rewrite bool_decide_eq_true. intros ->. right. by left.
      * intros. left. eauto.
    + destruct Hstep as (a0 & a1 & rest & m' & _ & Ha0 & -> & ->).
      insert_cases i k; [|by eauto].
      intros [= <-]. simpl. rewrite bool_decide_eq_true. intros <-.
      destruct a0 as [n|z]; [|discriminate]. simpl in Ha0.
      eapply Hnd; [exact Ha0|]. simpl. by rewrite bool_decide_eq_true.
    + destruct Hstep as (k' & _ & -> & ->).
      insert_cases i k; [by intros [= <-] | by eauto].
    + destruct Hstep as [-> ->]. eauto.
Qed.
End FirstLoop.

(** ** The second loop *)

(** What a successful step of the second loop did. *)
Lemma count_argument_inr nd mp arg mp' :
  count_argument nd mp arg = inr mp' ->
  exists d, lookup_arg nd arg = Some d /\
    match d with
    | ExternalInput _ => mp' = mp
    | WholeModuleOutput m =>
        (mp !! m = None \/ mp !! m = Some None) /\ mp' = <[m := None]> mp
    | IndexedModuleOutput m a =>
        exists z, a = ArgInt z /\
          ((mp !! m = None /\ mp' = <[m := Some (z + 1)%Z]> mp)
           \/ exists p, mp !! m = Some (Some p)
                /\ mp' = <[m := Some (Z.max p (z + 1))]> mp)
    end.
Proof.
  unfold count_argument, raise, ret.
  destruct (lookup_arg nd arg) as [[k|m|m a]|]; [| | |discriminate].
  - intros [= <-]. by eexists.
  - destruct (mp !! m) as [[p|]|] eqn:Hm; [discriminate| |];
      intros [= <-]; exists (WholeModuleOutput m); simpl; rewrite Hm; auto.
  - destruct (mp !! m) as [[p|]|] eqn:Hm; [|discriminate|];
      (destruct a as [n|z]; [discriminate|]);
      intros [= <-]; exists (IndexedModuleOutput m (ArgInt z));
      (split; [done|]); exists z; rewrite Hm; eauto 6.
Qed.


Lemma selection_indices_app m ds1 ds2 :
  selection_indices m (ds1 ++ ds2)
  = selection_indices m ds1 ++ selection_indices m ds2.
Proof. apply omap_app. Qed.

Lemma elem_of_selection_indices m ds z :
  z ∈ selection_indices m ds <-> IndexedModuleOutput m (ArgInt z) ∈ ds.
Proof.
  unfold selection_indices. rewrite list_elem_of_omap. split.
  - intros (d & Hd & Hz). destruct d as [k|m'|m' [n|z']]; try discriminate.
    simpl in Hz. destruct (decide (m' = m)) as [->|]; [|discriminate].
    by injection Hz as ->.
  - intros Hd. eexists. split; [exact Hd|]. simpl. by rewrite decide_True.
Qed.

Lemma selection_indices_nil m ds :
  (forall a, IndexedModuleOutput m a ∉ ds) -> selection_indices m ds = [].
Proof.
  intros H. destruct (selection_indices m ds) as [|z zs] eqn:Hs; [done|].
  exfalso. apply (H (ArgInt z)), elem_of_selection_indices.
  rewrite Hs. by left.
Qed.

Lemma arity_inv_other m ds d s :
  references m d = false -> arity_inv m ds s -> arity_inv m (ds ++ [d]) s.
Proof.
  intros Hd.
  assert (Hw : WholeModuleOutput m ∈ ds ++ [d] <-> WholeModuleOutput m ∈ ds).
  { rewrite elem_of_app, list_elem_of_singleton. split; [|by left].
    intros [H| <-]; [done|]. simpl in Hd. by rewrite bool_decide_eq_false in Hd. }
  assert (Hi : forall a, IndexedModuleOutput m a ∈ ds ++ [d]
                         <-> IndexedModuleOutput m a ∈ ds).
  { intros a. rewrite elem_of_app, list_elem_of_singleton. split; [|by left].
    intros [H| <-]; [done|]. simpl in Hd. by rewrite bool_decide_eq_false in Hd. }
  assert (Hs : selection_indices m (ds ++ [d]) = selection_indices m ds).
  { rewrite selection_indices_app. simpl.
    destruct d as [k|m'|m' [n|z]]; simpl; try by rewrite app_nil_r.
    simpl in Hd. rewrite bool_decide_eq_false in Hd.
    rewrite decide_False by done. by rewrite app_nil_r. }
  unfold arity_inv. destruct s as [[c|]|]; rewrite ?Hw, ?Hs;
    setoid_rewrite Hi; done.
Qed.

Lemma foldl_max_snoc (z : Z) (zs : list Z) (z' : Z) :
  foldl Z.max z (zs ++ [z']) = Z.max (foldl Z.max z zs) z'.
Proof. by rewrite foldl_app. Qed.

(** The largest element of a non-empty list, as [foldl] computes it. *)
Lemma foldl_max_spec (zs : list Z) : forall z,
  foldl Z.max z zs ∈ z :: zs /\ forall j, j ∈ z :: zs -> (j <= foldl Z.max z zs)%Z.
Proof.
  induction zs as [|z' zs IH]; intros z; simpl.
  - split; [by left|]. intros j Hj. apply list_elem_of_singleton in Hj. lia.
  - destruct (IH (Z.max z z')) as [Hin Hle]. split.
    + apply elem_of_cons in Hin as [Heq|Hin]; [|by do 2 right].
      rewrite Heq. destruct (Z.max_spec z z') as [[_ ->]|[_ ->]];
        [right|]; by left.
    + assert (Hm : (Z.max z z' <= foldl Z.max (Z.max z z') zs)%Z)
        by (apply Hle; by left).
      intros j Hj. apply elem_of_cons in Hj as [Hj|Hj]; [lia|].
      apply elem_of_cons in Hj as [Hj|Hj]; [lia|].
      apply Hle. by right.
Qed.

(** The invariant of the second loop: after any number of arguments, the
    entry of every module is the one its uses so far determine. *)
Lemma count_loop_inv nd (l : list Argument) : forall mp m,
  for_each (count_argument nd) l ∅ = inr mp ->
  arity_inv m (omap (lookup_arg nd) l) (mp !! m).
Proof.
  induction l as [|arg l IH] using rev_ind; intros mp m.
  - intros [= <-]. rewrite lookup_empty. simpl. split; [|intros a]; apply not_elem_of_nil.
  - rewrite for_each_app. intros H.
    apply bind_inr in H as (mp1 & Hl & Hstep). simpl in Hstep.
    apply bind_inr in Hstep as (mp2 & Hstep & [= ->]).
    apply count_argument_inr in Hstep as (d & Hd & Hstep).
    specialize (IH mp1 m Hl). rewrite omap_app. simpl. rewrite Hd. simpl.
    set (ds := omap (lookup_arg nd) l) in *.
    destruct (references m d) eqn:Href.
    2:{ replace (mp !! m) with (mp1 !! m); [by apply arity_inv_other|].
        symmetry. destruct d as [k|m'|m' a]; simpl in Href.
        - by subst.
        - destruct Hstep as [_ ->]. rewrite bool_decide_eq_false in Href.
          by rewrite lookup_insert_ne.
        - destruct Hstep as (z & _ & [[_ ->]|(p & _ & ->)]);
            rewrite bool_decide_eq_false in Href; by rewrite lookup_insert_ne. }
    destruct d as [k|m'|m' a]; simpl in Href; [done| |];
      apply bool_decide_eq_true in Href; subst m'.
    + destruct Hstep as [Hprev ->]. rewrite lookup_insert_eq. simpl.
      assert (Hno : forall a, IndexedModuleOutput m a ∉ ds).
      { destruct Hprev as [Hp|Hp]; rewrite Hp in IH; apply IH. }
      split.
      * apply elem_of_app. right. by left.
      * intros a Ha. apply elem_of_app in Ha as [Ha|Ha]; [by eapply Hno|].
        by apply list_elem_of_singleton in Ha.
    + destruct Hstep as (z & -> & [[Hprev ->]|(p & Hprev & ->)]);
        rewrite lookup_insert_eq; rewrite Hprev in IH; simpl in IH |- *.
      * destruct IH as [Hw Hno]. split_and!.
        -- intros Ha. apply elem_of_app in Ha as [Ha|Ha]; [done|].
           by apply list_elem_of_singleton in Ha.
        -- intros a Ha. apply elem_of_app in Ha as [Ha|Ha]; [by destruct (Hno a)|].
           apply list_elem_of_singleton in Ha. injection Ha as ->. by exists z.
        -- exists z, []. rewrite selection_indices_app, selection_indices_nil by done.
           simpl. rewrite decide_True by done. split; [done|]. simpl. lia.
      * destruct IH as (Hw & Hint & z0 & zs & Hsel & ->). split_and!.
        -- intros Ha. apply elem_of_app in Ha as [Ha|Ha]; [done|].
           by apply list_elem_of_singleton in Ha.
        -- intros a Ha. apply elem_of_app in Ha as [Ha|Ha]; [by apply Hint|].
           apply list_elem_of_singleton in Ha. injection Ha as ->. by exists z.
        -- exists z0, (zs ++ [z]). rewrite selection_indices_app, Hsel.
           simpl. rewrite decide_True by done. split; [done|].
           rewrite foldl_max_snoc. lia.
Qed.

(** On arguments that are resolved nodes with integer indices, the only
    exception the second loop can raise is that of its two asserts. *)
Lemma count_loop_error nd (l : list Argument) : forall mp e,
  Forall (fun arg => well_resolved nd arg = true) l ->
  for_each (count_argument nd) l mp = inl e -> e = MixedOutputAccess.
Proof.
  induction l as [|arg l IH]; intros mp e Hall; [discriminate|].
  inversion Hall as [|? ? Harg Hl]; subst. simpl. intros H.
  apply bind_inl in H as [H|(mp' & _ & H)]; [|by eapply IH].
  revert Harg H. unfold well_resolved, count_argument, raise, ret.
  destruct (lookup_arg nd arg) as [[k|m|m [n|z]]|]; try discriminate;
    intros _; destruct (mp !! m) as [[p|]|]; try discriminate; congruence.
Qed.

(** ** The third loop *)

Lemma make_inputs_inr nd (l : list Argument) : forall ds,
  make_inputs nd l = inr ds ->
  Forall2 (fun arg d => lookup_arg nd arg = Some d) l ds.
Proof.
  induction l as [|arg l IH]; intros ds; simpl.
  - intros [= <-]. constructor.
  - destruct (lookup_arg nd arg) as [d|] eqn:Hd; [|discriminate].
    intros H. apply bind_inr in H as (ds' & Hl & [= <-]).
    constructor; [done|]. by apply IH.
Qed.


Lemma add_layers_loop nd mp (nm : list (Node * nat)) : forall g g',
  for_each
    (fun g entry =>
       let* inputs := make_inputs nd (args (fst entry)) in
       ret (add_layer g (snd entry) inputs (mjoin (mp !! snd entry))))
    nm g = inr g' ->
  exists layers, g' = g ++ layers /\ Forall2 (layer_of nd mp) nm layers.
Proof.
  induction nm as [|entry nm IH]; intros g g'; simpl.
  - intros [= <-]. exists []. split; [by rewrite app_nil_r | constructor].
  - intros H. apply bind_inr in H as (g1 & Hstep & Hrest).
    apply bind_inr in Hstep as (inputs & Hin & [= <-]).
    apply IH in Hrest as (layers & -> & Hall).
    eexists (_ :: layers). split.
    + unfold add_layer. by rewrite <- app_assoc.
    + constructor; [|done]. by split_and!.
Qed.

Lemma add_layers_inr nd mp nm g :
  add_layers nd mp nm = inr g -> Forall2 (layer_of nd mp) nm g.
Proof.
  intros H. apply add_layers_loop in H as (layers & -> & Hall). done.
Qed.

(** A graph is returned exactly when the three loops run to their end. *)
Lemma create_graph_inr self arg_names g :
  create_graph self arg_names = inr g <->
  exists nd nm mp, resolve_nodes self arg_names = inr (nd, nm)
    /\ count_outputs nd nm = inr mp /\ add_layers nd mp nm = inr g.
Proof.
  unfold create_graph. split.
  - intros H. apply bind_inr in H as ([nd nm] & H1 & H).
    apply bind_inr in H as (mp & H2 & H3). by exists nd, nm, mp.
  - intros (nd & nm & mp & -> & H2 & H3). simpl. by rewrite H2.
Qed.

(** The arity given to the layers of module [m] is its entry in
    [module_to_num_outputs], where a missing entry reads as [None]. *)
Lemma layer_arity nd mp nm g layer :
  add_layers nd mp nm = inr g -> layer ∈ g ->
  layer_num_outputs layer = mjoin (mp !! layer_module layer).
Proof.
  intros H Hl. apply add_layers_inr in H.
  apply list_elem_of_lookup in Hl as [k Hk].
  destruct (Forall2_lookup_r _ _ _ _ _ H Hk) as (entry & _ & Hm & _ & Ha).
  by rewrite Hm.
Qed.


(** ** The model on the sample traces *)

Example split_path : split "." "encoder.layers.0" = ["encoder"; "layers"; "0"].
Proof. reflexivity. Qed.

Example split_empty_segments : split "." ".a." = [""; "a"; ""].
Proof. reflexivity. Qed.

Example graph_of_select_01 :
  create_graph (creator trace_select_01) ["x"]
  = inr [ mkLayer 1 [ExternalInput 0] (Some 2%Z);
          mkLayer 2 [IndexedModuleOutput 1 (ArgInt 0);
                     IndexedModuleOutput 1 (ArgInt 1)] None ].
Proof. reflexivity. Qed.

Example graph_of_module_twice :
  create_graph (creator trace_module_twice) ["x"]
  = inr [ mkLayer 1 [ExternalInput 0] (Some 1%Z);
          mkLayer 1 [IndexedModuleOutput 1 (ArgInt 0)] (Some 1%Z) ].
Proof. reflexivity. Qed.

Example unknown_module_path :
  create_graph
    (creator [mkNode "call_module" (TStr "a.missing") []]) []
  = inl ModuleResolutionFailed.
Proof. reflexivity. Qed.

Example local_module_call :
  create_graph
    (mkGraphCreator
       (mkTracer 0 (<[4 := mkModuleObject false ∅]>
                      (<[0 := mkModuleObject false {["d" := 4]}]> ∅))
          [mkNode "call_module" (TStr "d") []])) []
  = inl NotARemoteModule.
Proof. reflexivity. Qed.

(** A tracing facility that replaces both class attributes and then
    raises: the exception is handed on and the attributes are back. *)
Example call_trace_after_failure :
  let w := mkWorld "remote_named_modules" "remote_named_children"
             "nn_named_modules" "nn_named_children" tt in
  _call_trace
    (fun (_ _ : unit) w' =>
       (inl "unsupported operation" : string + unit,
        set_named_children "junk" (set_named_modules "junk" w')))
    tt tt w
  = (inl "unsupported operation", w).
Proof. reflexivity. Qed.

(** ** Properties of [create_graph] *)

Lemma Forall2_Forall_and {A B : Type} (P : A -> B -> Prop) (Q : A -> Prop)
    (l : list A) (k : list B) :
  Forall2 P l k -> Forall Q l -> Forall2 (fun a b => Q a /\ P a b) l k.
Proof.
  induction 1 as [|a b l k Hab Hlk IH]; intros HQ; [constructor|].
  inversion HQ; subst. constructor; auto.
Qed.

(** An indexed data source among the call arguments comes from
    [node_to_data]. *)
Lemma argument_data_lookup nd nm d :
  d ∈ argument_data nd nm -> exists n, nd !! n = Some d.
Proof.
  unfold argument_data. rewrite list_elem_of_omap.
  intros ([n|z] & _ & Hd); [by exists n | discriminate].
Qed.

(** C2. For every trace that [create_graph] accepts, the graph has one layer
    per [call_module] node of the trace, and the k-th layer added is the one
    of the k-th [call_module] node in trace order: its module is the module
    that node calls and its inputs are that node's resolved arguments. *)
Theorem create_graph_layers_follow_trace self arg_names g :
  create_graph self arg_names = inr g ->
  let calls := filter (fun n => node_kind n = ModuleCall) (graph (tracer self)) in
  length g = length calls
  /\ exists nd nm, resolve_nodes self arg_names = inr (nd, nm)
       /\ Forall2 (fun node layer =>
                     get_module self node = inr (Some (layer_module layer))
                     /\ make_inputs nd (args node) = inr (layer_inputs layer))
                  calls g.
Proof.
  intros H calls. apply create_graph_inr in H as (nd & nm & mp & H1 & H2 & H3).
  pose proof H1 as Hres. unfold resolve_nodes in Hres.
  apply resolve_loop_calls in Hres as (entries & Hnm & Hmap & Hall).
  simpl in Hnm. subst entries. apply add_layers_inr in H3.
  assert (HF : Forall2 (fun node layer =>
                 get_module self node = inr (Some (layer_module layer))
                 /\ make_inputs nd (args node) = inr (layer_inputs layer))
               calls g).
  { subst calls. rewrite <- Hmap. apply Forall2_fmap_l.
    eapply Forall2_impl; [exact (Forall2_Forall_and _ _ _ _ H3 Hall)|].
    intros [node m] layer [[Hget _] (Hm & Hin & _)]. simpl in *.
    by rewrite Hm. }
  split; [symmetry; exact (Forall2_length _ _ _ HF)|].
  by exists nd, nm.
Qed.

Lemma create_graph_layers_follow_trace_witness :
  exists g, create_graph (creator trace_select_01) ["x"] = inr g
    /\ length g = 2.
Proof.
  eexists. split; [reflexivity|].
  exact (proj1 (create_graph_layers_follow_trace
                  (creator trace_select_01) ["x"] _ eq_refl)).
Defined.

(** C5. For every trace without a [SelectElement] node, every layer of the
    graph that [create_graph] returns has output arity [None] (single). *)
Theorem no_select_all_single self arg_names g :
  create_graph self arg_names = inr g ->
  Forall (fun n => node_kind n <> SelectElement) (graph (tracer self)) ->
  forall layer, layer ∈ g -> layer_num_outputs layer = None.
Proof.
  intros H Hsel layer Hl.
  apply create_graph_inr in H as (nd & nm & mp & H1 & H2 & H3).
  rewrite (layer_arity _ _ _ _ _ H3 Hl).
  assert (Hnd : forall k m a, nd !! k <> Some (IndexedModuleOutput m a)).
  { eapply resolve_loop_no_select; [exact H1 | exact Hsel |].
    intros k m a. by rewrite lookup_empty. }
  rewrite count_outputs_flat in H2.
  pose proof (count_loop_inv _ _ _ (layer_module layer) H2) as Hinv.
  destruct (mp !! layer_module layer) as [[c|]|]; [|done..].
  destruct Hinv as (_ & _ & z & zs & Hs & _). exfalso.
  assert (Hz : z ∈ selection_indices (layer_module layer) (argument_data nd nm)).
  { unfold argument_data. rewrite Hs. by left. }
  apply elem_of_selection_indices, argument_data_lookup in Hz as [n Hn].
  by eapply Hnd.
Qed.

Lemma no_select_all_single_witness :
  exists g, create_graph (creator trace_chain) ["x"] = inr g
    /\ Forall (fun layer => layer_num_outputs layer = None) g.
Proof.
  eexists. split; [reflexivity|].
  apply Forall_forall. intros layer Hl.
  refine (no_select_all_single (creator trace_chain) ["x"] _ eq_refl _ layer Hl).
  repeat constructor; vm_compute; discriminate.
Defined.

(** The entry of module [m] once the second loop has run to its end. *)
Lemma count_outputs_inv nd nm mp m :
  count_outputs nd nm = inr mp -> arity_inv m (argument_data nd nm) (mp !! m).
Proof. rewrite count_outputs_flat. apply count_loop_inv. Qed.

(** A module that no call argument mentions has no entry. *)
Lemma count_outputs_unreferenced nd nm mp m :
  count_outputs nd nm = inr mp ->
  (forall d, d ∈ argument_data nd nm -> references m d = false) ->
  mp !! m = None.
Proof.
  intros H Hno. pose proof (count_outputs_inv _ _ _ m H) as Hinv.
  destruct (mp !! m) as [[c|]|]; [| |done]; exfalso.
  - destruct Hinv as (_ & _ & z & zs & Hs & _).
    assert (Hz : z ∈ selection_indices m (argument_data nd nm))
      by (rewrite Hs; by left).
    apply elem_of_selection_indices, Hno in Hz. simpl in Hz.
    by rewrite bool_decide_eq_false in Hz.
  - destruct Hinv as [Hw _]. apply Hno in Hw. simpl in Hw.
    by rewrite bool_decide_eq_false in Hw.
Qed.

(** A module whose result is selected at some index has the entry
    "one more than the largest index". *)
Lemma count_outputs_selected nd nm mp m :
  count_outputs nd nm = inr mp ->
  selection_indices m (argument_data nd nm) <> [] ->
  exists k, k ∈ selection_indices m (argument_data nd nm)
    /\ (forall j, j ∈ selection_indices m (argument_data nd nm) -> (j <= k)%Z)
    /\ mp !! m = Some (Some (k + 1)%Z).
Proof.
  intros H Hne. pose proof (count_outputs_inv _ _ _ m H) as Hinv.
  destruct (mp !! m) as [[c|]|].
  - destruct Hinv as (_ & _ & z & zs & Hs & ->). rewrite Hs.
    destruct (foldl_max_spec zs z) as [Hin Hle].
    exists (foldl Z.max z zs). split_and!; [done..|]. do 2 f_equal. lia.
  - destruct Hinv as [_ Hno]. by apply selection_indices_nil in Hno.
  - destruct Hinv as [_ Hno]. by apply selection_indices_nil in Hno.
Qed.

(** A module whose result is passed to some call has a layer of its own. *)
Lemma referenced_module_has_layer self arg_names g nd nm m d :
  create_graph self arg_names = inr g ->
  resolve_nodes self arg_names = inr (nd, nm) ->
  d ∈ argument_data nd nm -> references m d = true ->
  exists layer, layer ∈ g /\ layer_module layer = m.
Proof.
  intros H H1 Hd Href.
  apply create_graph_inr in H as (nd0 & nm0 & mp & H1' & _ & H3).
  rewrite H1 in H1'. injection H1' as <- <-.
  apply argument_data_lookup in Hd as [n Hn].
  assert (Hm : m ∈ map snd nm).
  { unfold resolve_nodes in H1.
    eapply (resolve_loop_modules _ _ _ _ _ _ _ _ H1); [|exact Hn|exact Href].
    intros k d' m'. by rewrite lookup_empty. }
  apply list_elem_of_fmap in Hm as (entry & -> & Hentry).
  apply list_elem_of_lookup in Hentry as [k Hk].
  apply add_layers_inr in H3.
  destruct (Forall2_lookup_l _ _ _ _ _ H3 Hk) as (layer & Hl & Hm & _).
  exists layer. split; [|done]. apply list_elem_of_lookup. by exists k.
Qed.

(** C3. When [create_graph] returns a graph and the result of module [m] is
    passed to module calls at selection indices, [m] has a layer and the
    arity of every layer of [m] is one more than the largest of those
    indices, whatever indices are missing below it: the index set {0,1}
    gives 2 and the index set {0,2} gives 3. *)
Theorem selected_arity_is_max_index_plus_one self arg_names g nd nm m :
  create_graph self arg_names = inr g ->
  resolve_nodes self arg_names = inr (nd, nm) ->
  let idxs := selection_indices m (argument_data nd nm) in
  idxs <> [] ->
  (exists layer, layer ∈ g /\ layer_module layer = m)
  /\ (exists k, k ∈ idxs /\ (forall j, j ∈ idxs -> (j <= k)%Z)
        /\ forall layer, layer ∈ g -> layer_module layer = m ->
             layer_num_outputs layer = Some (k + 1)%Z)
  /\ ((forall j, j ∈ idxs <-> j = 0%Z \/ j = 1%Z) ->
      forall layer, layer ∈ g -> layer_module layer = m ->
        layer_num_outputs layer = Some 2%Z)
  /\ ((forall j, j ∈ idxs <-> j = 0%Z \/ j = 2%Z) ->
      forall layer, layer ∈ g -> layer_module layer = m ->
        layer_num_outputs layer = Some 3%Z).
Proof.
  intros H H1 idxs Hne. pose proof H as Hg.
  apply create_graph_inr in H as (nd0 & nm0 & mp & H1' & H2 & H3).
  rewrite H1 in H1'. injection H1' as <- <-.
  destruct (count_outputs_selected _ _ _ m H2 Hne) as (k & Hk & Hmax & Hmp).
  fold idxs in Hk, Hmax.
  assert (Hlayers : forall layer, layer ∈ g -> layer_module layer = m ->
                      layer_num_outputs layer = Some (k + 1)%Z).
  { intros layer Hl <-. rewrite (layer_arity _ _ _ _ _ H3 Hl). by rewrite Hmp. }
  split_and!.
  - apply elem_of_selection_indices in Hk.
    eapply referenced_module_has_layer; [exact Hg|exact H1|exact Hk|].
    simpl. by rewrite bool_decide_eq_true.
  - by exists k.
  - intros Hset layer Hl Hm. rewrite (Hlayers layer Hl Hm). do 2 f_equal.
    assert (1 <= k)%Z by (apply Hmax, Hset; by right).
    destruct (proj1 (Hset k) Hk); lia.
  - intros Hset layer Hl Hm. rewrite (Hlayers layer Hl Hm). do 2 f_equal.
    assert (2 <= k)%Z by (apply Hmax, Hset; by right).
    destruct (proj1 (Hset k) Hk); lia.
Qed.

Lemma selected_arity_is_max_index_plus_one_witness :
  exists g, create_graph (creator trace_select_02) ["x"] = inr g
    /\ forall layer, layer ∈ g -> layer_module layer = 1 ->
         layer_num_outputs layer = Some 3%Z.
Proof.
  eexists. split; [reflexivity|].
  destruct (resolve_nodes (creator trace_select_02) ["x"])
    as [e|[nd nm]] eqn:H1; [vm_compute in H1; discriminate|].
  assert (Hidx : selection_indices 1 (argument_data nd nm) = [0; 2]%Z).
  { vm_compute in H1. injection H1 as <- <-. reflexivity. }
  refine (proj2 (proj2 (proj2 (selected_arity_is_max_index_plus_one
            (creator trace_select_02) ["x"] _ nd nm 1 eq_refl H1 _))) _).
  - rewrite Hidx. discriminate.
  - intros j. rewrite Hidx, !elem_of_cons, elem_of_nil. tauto.
Defined.

(** C8, as the code has it. When [create_graph] returns a graph and no
    argument of any module call (a call of the same module included)
    resolves to a result of module [m], whole or indexed, every layer of
    [m] has the default arity [None]. *)
Theorem unreferenced_module_is_single self arg_names g nd nm m :
  create_graph self arg_names = inr g ->
  resolve_nodes self arg_names = inr (nd, nm) ->
  (forall d, d ∈ argument_data nd nm -> references m d = false) ->
  forall layer, layer ∈ g -> layer_module layer = m ->
    layer_num_outputs layer = None.
Proof.
  intros H H1 Hno layer Hl <-.
  apply create_graph_inr in H as (nd0 & nm0 & mp & H1' & H2 & H3).
  rewrite H1 in H1'. injection H1' as <- <-.
  rewrite (layer_arity _ _ _ _ _ H3 Hl).
  by rewrite (count_outputs_unreferenced _ _ _ _ H2 Hno).
Qed.

Lemma unreferenced_module_is_single_witness :
  exists g, create_graph (creator trace_select_01) ["x"] = inr g
    /\ forall layer, layer ∈ g -> layer_module layer = 2 ->
         layer_num_outputs layer = None.
Proof.
  eexists. split; [reflexivity|].
  destruct (resolve_nodes (creator trace_select_01) ["x"])
    as [e|[nd nm]] eqn:H1; [vm_compute in H1; discriminate|].
  refine (unreferenced_module_is_single
            (creator trace_select_01) ["x"] _ nd nm 2 eq_refl H1 _).
  vm_compute in H1. injection H1 as <- <-.
  intros d Hd. vm_compute in Hd.
  repeat (apply elem_of_cons in Hd as [->|Hd]; [reflexivity|]).
  by apply elem_of_nil in Hd.
Defined.

(** C8, as the claim words it, fails when a module is called twice. In
    [y = a(x); return a(y[0])] the second call of [a] is the call at
    position 1 of [node_to_module]; the only other call is passed the
    external input, so no other call is passed a result of [a]; yet the
    layer of the second call has arity 1, not [None]. *)
Lemma unreferenced_by_others_counterexample :
  exists nd nm g node layer,
    resolve_nodes (creator trace_module_twice) ["x"] = inr (nd, nm)
    /\ create_graph (creator trace_module_twice) ["x"] = inr g
    /\ nm !! 1 = Some (node, 1) /\ g !! 1 = Some layer
    /\ layer_module layer = 1
    /\ unreferenced_by_others nd nm 1 1
    /\ layer_num_outputs layer = Some 1%Z.
Proof.
  do 5 eexists. split; [vm_compute; reflexivity|].
  split; [vm_compute; reflexivity|].
  split; [reflexivity|]. split; [reflexivity|]. split; [reflexivity|].
  split; [|reflexivity].
  intros k' entry d Hk Hentry Hd.
  destruct k' as [|[|k']]; [|done|discriminate].
  injection Hentry as <-. vm_compute in Hd.
  apply elem_of_cons in Hd as [->|Hd]; [reflexivity|].
  by apply elem_of_nil in Hd.
Qed.

(** C10. When [create_graph] returns a graph, some [SelectElement] node
    selects from the result of module [m], and no argument of any module
    call resolves to a result of [m], whole or indexed, then [m] has no
    entry in [module_to_num_outputs] and every layer of [m] has the default
    arity [None]. *)
Theorem selection_outside_calls_is_ignored self arg_names g nd nm mp m n a :
  create_graph self arg_names = inr g ->
  resolve_nodes self arg_names = inr (nd, nm) ->
  count_outputs nd nm = inr mp ->
  nd !! n = Some (IndexedModuleOutput m a) ->
  (forall d, d ∈ argument_data nd nm -> references m d = false) ->
  mp !! m = None
  /\ (exists layer, layer ∈ g /\ layer_module layer = m)
  /\ forall layer, layer ∈ g -> layer_module layer = m ->
       layer_num_outputs layer = None.
Proof.
  intros H H1 H2 Hsel Hno. split_and!.
  - by eapply count_outputs_unreferenced.
  - apply create_graph_inr in H as (nd0 & nm0 & mp0 & H1' & _ & H3).
    rewrite H1 in H1'. injection H1' as <- <-.
    assert (Hm : m ∈ map snd nm).
    { unfold resolve_nodes in H1.
      eapply (resolve_loop_modules _ _ _ _ _ _ _ _ H1); [|exact Hsel|].
      - intros k d' m'. by rewrite lookup_empty.
      - simpl. by rewrite bool_decide_eq_true. }
    apply list_elem_of_fmap in Hm as (entry & -> & Hentry).
    apply list_elem_of_lookup in Hentry as [k Hk].
    apply add_layers_inr in H3.
    destruct (Forall2_lookup_l _ _ _ _ _ H3 Hk) as (layer & Hl & Hm & _).
    exists layer. split; [|done]. apply list_elem_of_lookup. by exists k.
  - intros layer Hl <-.
    apply create_graph_inr in H as (nd0 & nm0 & mp0 & H1' & H2' & H3).
    rewrite H1 in H1'. injection H1' as <- <-.
    rewrite H2 in H2'. injection H2' as <-.
    rewrite (layer_arity _ _ _ _ _ H3 Hl).
    by rewrite (count_outputs_unreferenced _ _ _ _ H2 Hno).
Qed.

Lemma selection_outside_calls_is_ignored_witness :
  exists g, create_graph (creator trace_select_to_output) ["x"] = inr g
    /\ exists layer, layer ∈ g /\ layer_module layer = 1
         /\ layer_num_outputs layer = None.
Proof.
  eexists. split; [reflexivity|].
  destruct (resolve_nodes (creator trace_select_to_output) ["x"])
    as [e|[nd nm]] eqn:H1; [vm_compute in H1; discriminate|].
  destruct (count_outputs nd nm) as [e|mp] eqn:H2.
  { vm_compute in H1. injection H1 as <- <-. vm_compute in H2. discriminate. }
  assert (Hsel : nd !! 2 = Some (IndexedModuleOutput 1 (ArgInt 0))).
  { vm_compute in H1. by injection H1 as <- <-. }
  assert (Hno : forall d, d ∈ argument_data nd nm -> references 1 d = false).
  { vm_compute in H1. injection H1 as <- <-.
    intros d Hd. vm_compute in Hd.
    repeat (apply elem_of_cons in Hd as [->|Hd]; [reflexivity|]).
    by apply elem_of_nil in Hd. }
  destruct (selection_outside_calls_is_ignored
              (creator trace_select_to_output) ["x"] _ nd nm mp 1 2 (ArgInt 0)
              eq_refl H1 H2 Hsel Hno) as (_ & (layer & Hl & Hm) & Hnone).
  exists layer. split_and!; [done..|]. by apply Hnone.
Defined.

(** The second loop raises the exception of its asserts when it comes to
    the second of two conflicting uses, all arguments before it being
    resolved. *)
Lemma count_loop_conflict nd (l1 l2 : list Argument) arg d d' :
  Forall (fun a => well_resolved nd a = true) l1 ->
  lookup_arg nd arg = Some d ->
  d' ∈ omap (lookup_arg nd) l1 ->
  conflicting d d' ->
  for_each (count_argument nd) (l1 ++ arg :: l2) ∅ = inl MixedOutputAccess.
Proof.
  intros Hall Hd Hd' Hconf. rewrite for_each_app.
  destruct (for_each (count_argument nd) l1 ∅) as [e|mp1] eqn:Hl1; simpl.
  { f_equal. by eapply count_loop_error. }
  assert (Hstep : count_argument nd mp1 arg = inl MixedOutputAccess).
  { unfold count_argument, raise, ret. rewrite Hd.
    destruct d as [k|m|m a], d' as [k'|m'|m' a']; simpl in Hconf;
      try done; subst m'.
    - pose proof (count_loop_inv _ _ _ m Hl1) as Hinv.
      destruct (mp1 !! m) as [[c|]|]; [done| |];
        destruct Hinv as [_ Hno]; by destruct (Hno a').
    - pose proof (count_loop_inv _ _ _ m Hl1) as Hinv.
      destruct (mp1 !! m) as [[c|]|]; [|done|];
        by destruct Hinv as [Hno _]. }
  by rewrite Hstep.
Qed.

(** C1, as the code has it. When the first loop raises, [create_graph]
    raises that exception and the second loop is not run. When the first
    loop has resolved the whole trace and the result of a module is passed
    to module calls both whole and selected, [create_graph] raises and
    returns no graph; it raises the exception of the asserts of lines 62 and
    68, whichever of the two uses the second loop visits first, whenever
    the arguments it visits before the second of them are resolved nodes
    with integer selection indices. *)
Theorem mixed_access_fails self arg_names :
  (forall e, resolve_nodes self arg_names = inl e ->
             create_graph self arg_names = inl e)
  /\ forall nd nm, resolve_nodes self arg_names = inr (nd, nm) ->
       (forall m a,
          WholeModuleOutput m ∈ argument_data nd nm ->
          IndexedModuleOutput m a ∈ argument_data nd nm ->
          exists e, create_graph self arg_names = inl e)
       /\ forall l1 arg l2 d d',
            call_arguments nm = l1 ++ arg :: l2 ->
            Forall (fun a => well_resolved nd a = true) l1 ->
            lookup_arg nd arg = Some d ->
            d' ∈ omap (lookup_arg nd) l1 ->
            conflicting d d' ->
            create_graph self arg_names = inl MixedOutputAccess.
Proof.
  split; [apply create_graph_resolve_error|].
  intros nd nm H1. unfold create_graph. rewrite H1. cbn [bind]. split.
  - intros m a Hw Hi.
    destruct (count_outputs nd nm) as [e|mp] eqn:H2; simpl; [by exists e|].
    exfalso. pose proof (count_outputs_inv _ _ _ m H2) as Hinv.
    destruct (mp !! m) as [[c|]|].
    + by destruct Hinv as [Hno _].
    + destruct Hinv as [_ Hno]. by apply (Hno a).
    + destruct Hinv as [_ Hno]. by apply (Hno a).
  - intros l1 arg l2 d d' Hargs Hall Hd Hd' Hconf.
    rewrite count_outputs_flat, Hargs.
    by rewrite (count_loop_conflict _ _ _ _ _ _ Hall Hd Hd' Hconf).
Qed.

Lemma mixed_access_fails_witness :
  create_graph (creator trace_whole_then_indexed) ["x"] = inl MixedOutputAccess
  /\ create_graph (creator trace_indexed_then_whole) ["x"] = inl MixedOutputAccess
  /\ create_graph (creator trace_mixed_then_constant) ["x"]
     = inl MixedOutputAccess.
Proof.
  split_and!.
  - destruct (resolve_nodes (creator trace_whole_then_indexed) ["x"])
      as [e|[nd nm]] eqn:H1; [vm_compute in H1; discriminate|].
    refine (proj2 (proj2 (mixed_access_fails
              (creator trace_whole_then_indexed) ["x"]) nd nm H1)
              [ArgNode 0; ArgNode 1] (ArgNode 3) []
              (IndexedModuleOutput 1 (ArgInt 0)) (WholeModuleOutput 1)
              _ _ _ _ eq_refl);
      vm_compute in H1; injection H1 as <- <-.
    + reflexivity.
    + repeat constructor.
    + reflexivity.
    + vm_compute. repeat constructor.
  - destruct (resolve_nodes (creator trace_indexed_then_whole) ["x"])
      as [e|[nd nm]] eqn:H1; [vm_compute in H1; discriminate|].
    refine (proj2 (proj2 (mixed_access_fails
              (creator trace_indexed_then_whole) ["x"]) nd nm H1)
              [ArgNode 0; ArgNode 2] (ArgNode 1) []
              (WholeModuleOutput 1) (IndexedModuleOutput 1 (ArgInt 0))
              _ _ _ _ eq_refl);
      vm_compute in H1; injection H1 as <- <-.
    + reflexivity.
    + repeat constructor.
    + reflexivity.
    + vm_compute. repeat constructor.
  - destruct (resolve_nodes (creator trace_mixed_then_constant) ["x"])
      as [e|[nd nm]] eqn:H1; [vm_compute in H1; discriminate|].
    refine (proj2 (proj2 (mixed_access_fails
              (creator trace_mixed_then_constant) ["x"]) nd nm H1)
              [ArgNode 0; ArgNode 1] (ArgNode 2) [ArgInt 7]
              (IndexedModuleOutput 1 (ArgInt 0)) (WholeModuleOutput 1)
              _ _ _ _ eq_refl);
      vm_compute in H1; injection H1 as <- <-.
    + reflexivity.
    + repeat constructor.
    + reflexivity.
    + vm_compute. repeat constructor.
Defined.

(** C1, as the claim words it, fails when the first loop raises after both
    uses. In [y = a(x); return b(y) + c(y[0])] the first five nodes are
    resolved, [b] is passed the whole result of [a] and [c] an element of
    it; then the addition fails the [assert False] of line 53, and the
    second loop, with its asserts of lines 62 and 68, is never run. *)
Lemma mixed_access_counterexample :
  exists nd nm,
    for_each (resolve_node (creator trace_mixed_then_add) ["x"])
      (enumerate 0 (take 5 trace_mixed_then_add)) (∅, []) = inr (nd, nm)
    /\ WholeModuleOutput 1 ∈ argument_data nd nm
    /\ IndexedModuleOutput 1 (ArgInt 0) ∈ argument_data nd nm
    /\ create_graph (creator trace_mixed_then_add) ["x"]
       = inl UnsupportedOperation
    /\ create_graph (creator trace_mixed_then_add) ["x"]
       <> inl MixedOutputAccess.
Proof.
  do 2 eexists. split; [vm_compute; reflexivity|].
  split; [vm_compute; repeat constructor|].
  split; [vm_compute; repeat constructor|].
  split; [reflexivity|discriminate].
Qed.

(** ** Single steps of the first loop *)

Lemma index_found arg_names name :
  name ∈ arg_names ->
  exists k, index arg_names (TStr name) = inr k
    /\ arg_names !! k = Some name
    /\ forall j, j < k -> arg_names !! j <> Some name.
Proof.
  intros Hin. unfold index.
  destruct (list_find (fun n => TStr n = TStr name) arg_names)
    as [[k x]|] eqn:Hf.
  - apply list_find_Some in Hf as (Hk & [= ->] & Hleast).
    exists k. split_and!; [done..|].
    intros j Hj Hname. by apply (Hleast j name).
  - apply list_find_None in Hf. rewrite Forall_forall in Hf.
    by destruct (Hf name Hin).
Qed.

Lemma index_missing arg_names name :
  name ∉ arg_names -> index arg_names (TStr name) = inl UnknownInput.
Proof.
  intros Hout. unfold index.
  destruct (list_find (fun n => TStr n = TStr name) arg_names)
    as [[k x]|] eqn:Hf; [|done].
  apply list_find_Some in Hf as (Hk & [= ->] & _).
  destruct Hout. apply list_elem_of_lookup. by exists k.
Qed.

(** An exception at a node that the first loop reaches is the result of
    [create_graph]. *)
Lemma create_graph_error_at self arg_names pre node post st e :
  graph (tracer self) = pre ++ node :: post ->
  for_each (resolve_node self arg_names) (enumerate 0 pre) (∅, []) = inr st ->
  resolve_node self arg_names st (length pre, node) = inl e ->
  create_graph self arg_names = inl e.
Proof.
  intros Hg Hpre Hnode. apply create_graph_resolve_error.
  rewrite (resolve_nodes_split _ _ _ _ _ Hg), Hpre. simpl. by rewrite Hnode.
Qed.

(** The first loop never overwrites the entry of an earlier node. *)
Lemma resolve_loop_preserves self arg_names l : forall i nd nm nd' nm',
  for_each (resolve_node self arg_names) (enumerate i l) (nd, nm)
  = inr (nd', nm') ->
  forall k, k < i -> nd' !! k = nd !! k.
Proof.
  induction l as [|node l IH]; intros i nd nm nd' nm'.
  - by intros [= <- <-].
  - rewrite enumerate_cons. simpl. intros H k Hk.
    apply bind_inr in H as ([nd1 nm1] & Hstep & Hrest).
    rewrite (IH _ _ _ _ _ Hrest k) by lia.
    apply resolve_node_inr in Hstep.
    destruct (node_kind node); try done.
    + destruct Hstep as (? & _ & _ & -> & _). apply lookup_insert_ne. lia.
    + destruct Hstep as (? & ? & ? & ? & _ & _ & -> & _).
      apply lookup_insert_ne. lia.
    + destruct Hstep as (? & _ & -> & _). apply lookup_insert_ne. lia.
    + by destruct Hstep as [-> _].
Qed.

(** Placeholders can only raise the [ValueError] of [list.index]. *)
Lemma resolve_placeholders_error self arg_names l : forall i st e,
  Forall (fun n => node_kind n = Placeholder) l ->
  for_each (resolve_node self arg_names) (enumerate i l) st = inl e ->
  e = UnknownInput.
Proof.
  induction l as [|node l IH]; intros i [nd nm] e Hall; [discriminate|].
  inversion Hall as [|? ? Hkind Hl]; subst.
  rewrite enumerate_cons. simpl. intros H.
  apply bind_inl in H as [H|(st' & _ & H)]; [|by eapply IH].
  revert H. unfold resolve_node, index, raise, ret. rewrite Hkind.
  destruct (list_find _ arg_names) as [[k x]|]; simpl; congruence.
Qed.

(** C4. A placeholder node whose name occurs in [arg_names] resolves to
    [ExternalInput k], where [k] is the first position of the name in the
    list. When the name does not occur, the step raises the [ValueError] of
    [list.index], and so does [create_graph] on every trace in which the
    first loop reaches the node, in particular on every trace in which only
    placeholders come before it. *)
Theorem placeholder_resolution self arg_names node name :
  op node = "placeholder" -> target node = TStr name ->
  (name ∈ arg_names ->
   exists k, arg_names !! k = Some name
     /\ (forall j, j < k -> arg_names !! j <> Some name)
     /\ forall i nd nm,
          resolve_node self arg_names (nd, nm) (i, node)
          = inr (<[i := ExternalInput k]> nd, nm))
  /\ (name ∉ arg_names ->
      (forall i st, resolve_node self arg_names st (i, node) = inl UnknownInput)
      /\ forall pre post,
           graph (tracer self) = pre ++ node :: post ->
           (forall st,
              for_each (resolve_node self arg_names) (enumerate 0 pre) (∅, [])
              = inr st ->
              create_graph self arg_names = inl UnknownInput)
           /\ (Forall (fun n => node_kind n = Placeholder) pre ->
               create_graph self arg_names = inl UnknownInput)).
Proof.
  intros Hop Htarget.
  assert (Hkind : node_kind node = Placeholder).
  { unfold node_kind. rewrite Hop.
    rewrite decide_False by done. rewrite decide_False by (by intros [_ ?]).
    by rewrite decide_True. }
  split.
  - intros Hin. destruct (index_found _ _ Hin) as (k & Hidx & Hk & Hleast).
    exists k. split_and!; [done..|]. intros i nd nm.
    unfold resolve_node. by rewrite Hkind, Htarget, Hidx.
  - intros Hout.
    assert (Hstep : forall i st,
              resolve_node self arg_names st (i, node) = inl UnknownInput).
    { intros i [nd nm]. unfold resolve_node.
      by rewrite Hkind, Htarget, (index_missing _ _ Hout). }
    split; [done|]. intros pre post Hg.
    assert (Hreach : forall st,
              for_each (resolve_node self arg_names) (enumerate 0 pre) (∅, [])
              = inr st ->
              create_graph self arg_names = inl UnknownInput).
    { intros st Hpre.
      eapply create_graph_error_at; [exact Hg | exact Hpre | apply Hstep]. }
    split; [done|]. intros Hall.
    destruct (for_each (resolve_node self arg_names) (enumerate 0 pre) (∅, []))
      as [e|st] eqn:Hpre; [|by eapply Hreach].
    rewrite (resolve_placeholders_error _ _ _ _ _ _ Hall Hpre) in Hpre.
    apply create_graph_resolve_error.
    rewrite (resolve_nodes_split _ _ _ _ _ Hg). by rewrite Hpre.
Qed.

Lemma placeholder_resolution_witness :
  resolve_node (creator trace_select_01) ["w"; "x"] (∅, [])
    (0, mkNode "placeholder" (TStr "x") [])
  = inr (<[0 := ExternalInput 1]> ∅, [])
  /\ create_graph (creator trace_select_01) ["w"] = inl UnknownInput.
Proof.
  pose proof (placeholder_resolution (creator trace_select_01) ["w"; "x"]
                (mkNode "placeholder" (TStr "x") []) "x" eq_refl eq_refl)
    as [Hfound _].
  pose proof (placeholder_resolution (creator trace_select_01) ["w"]
                (mkNode "placeholder" (TStr "x") []) "x" eq_refl eq_refl)
    as [_ Hmissing].
  split.
  - destruct Hfound as (k & Hk & _ & Hstep); [by right; left|].
    destruct k as [|[|k]]; [discriminate| |discriminate]. apply Hstep.
  - destruct Hmissing as [_ Hgraph].
    + intros Hin. apply elem_of_cons in Hin as [Hin|Hin]; [discriminate|].
      by apply elem_of_nil in Hin.
    + exact (proj2 (Hgraph [] (tl trace_select_01) eq_refl) (Forall_nil_2 _)).
Defined.

(** C6, as the code has it. At a [SelectElement] node: when an earlier
    node raises, that exception is the result of [create_graph]. When the
    first loop reaches the node and its first argument is not resolved to a
    whole module output (it is an external input, an indexed output, or not
    resolved at all), the asserts of lines 44 and 46 fail and so does
    [create_graph]; when it is resolved to [WholeModuleOutput m], the node
    is resolved to [IndexedModuleOutput m index], [index] being its second
    argument, and keeps that entry to the end of the loop. *)
Theorem select_element_resolution self arg_names pre node post a0 rest :
  graph (tracer self) = pre ++ node :: post ->
  node_kind node = SelectElement -> args node = a0 :: rest ->
  let before :=
    for_each (resolve_node self arg_names) (enumerate 0 pre) (∅, []) in
  (forall e, before = inl e -> create_graph self arg_names = inl e)
  /\ forall nd nm, before = inr (nd, nm) ->
       ((forall m, lookup_arg nd a0 <> Some (WholeModuleOutput m)) ->
        create_graph self arg_names = inl SelectionOnNonModule)
       /\ (forall m index rest',
             lookup_arg nd a0 = Some (WholeModuleOutput m) ->
             rest = index :: rest' ->
             resolve_node self arg_names (nd, nm) (length pre, node)
             = inr (<[length pre := IndexedModuleOutput m index]> nd, nm)
             /\ forall nd' nm',
                  resolve_nodes self arg_names = inr (nd', nm') ->
                  nd' !! length pre = Some (IndexedModuleOutput m index)).
Proof.
  intros Hg Hkind Hargs before. split.
  { intros e Hpre. apply create_graph_resolve_error.
    rewrite (resolve_nodes_split _ _ _ _ _ Hg). fold before. by rewrite Hpre. }
  intros nd nm Hpre. split.
  - intros Hnot. eapply create_graph_error_at; [exact Hg | exact Hpre |].
    unfold resolve_node. rewrite Hkind, Hargs.
    destruct (lookup_arg nd a0) as [[k|m|m a]|] eqn:Ha0; try done.
    by destruct (Hnot m).
  - intros m index rest' Ha0 ->.
    assert (Hstep : resolve_node self arg_names (nd, nm) (length pre, node)
                    = inr (<[length pre := IndexedModuleOutput m index]> nd, nm)).
    { unfold resolve_node. by rewrite Hkind, Hargs, Ha0. }
    split; [done|]. intros nd' nm' Hres.
    rewrite (resolve_nodes_split _ _ _ _ _ Hg) in Hres.
    fold before in Hres. rewrite Hpre in Hres.
    cbn [bind] in Hres. rewrite Hstep in Hres. cbn [bind] in Hres.
    rewrite (resolve_loop_preserves _ _ _ _ _ _ _ _ Hres) by lia.
    apply lookup_insert_eq.
Qed.

Lemma select_element_resolution_witness :
  (exists nd nm,
     resolve_nodes (creator trace_select_01) ["x"] = inr (nd, nm)
     /\ nd !! 2 = Some (IndexedModuleOutput 1 (ArgInt 0)))
  /\ create_graph (creator trace_select_on_input) ["x"]
     = inl SelectionOnNonModule.
Proof.
  split.
  - destruct (resolve_nodes (creator trace_select_01) ["x"])
      as [e|[nd nm]] eqn:H1; [vm_compute in H1; discriminate|].
    exists nd, nm. split; [done|].
    destruct (for_each (resolve_node (creator trace_select_01) ["x"])
                (enumerate 0 (take 2 trace_select_01)) (∅, []))
      as [e|[nd0 nm0]] eqn:H0; [vm_compute in H0; discriminate|].
    refine (proj2 (proj2 (proj2 (select_element_resolution
              (creator trace_select_01) ["x"]
              (take 2 trace_select_01)
              (mkNode "call_function" TGetitem [ArgNode 1; ArgInt 0])
              (drop 3 trace_select_01) (ArgNode 1) [ArgInt 0]
              eq_refl eq_refl eq_refl) nd0 nm0 H0)
            1 (ArgInt 0) [] _ eq_refl) nd nm H1).
    vm_compute in H0. by injection H0 as <- <-.
  - destruct (for_each (resolve_node (creator trace_select_on_input) ["x"])
                (enumerate 0 (take 1 trace_select_on_input)) (∅, []))
      as [e|[nd0 nm0]] eqn:H0; [vm_compute in H0; discriminate|].
    refine (proj1 (proj2 (select_element_resolution
              (creator trace_select_on_input) ["x"]
              (take 1 trace_select_on_input)
              (mkNode "call_function" TGetitem [ArgNode 0; ArgInt 0])
              (drop 2 trace_select_on_input) (ArgNode 0) [ArgInt 0]
              eq_refl eq_refl eq_refl) nd0 nm0 H0) _).
    vm_compute in H0. injection H0 as <- <-. by intros m.
Defined.

(** C6, as the claim words it, fails when an earlier node raises. In
    [forward(x, w): return a(x[0])] with only [x] declared, the selection
    [x[0]] has a first argument that is resolved to an external input, not
    to a module; but the placeholder [w] before it raises the [ValueError]
    of [list.index], and the asserts of lines 44 and 46 are never reached. *)
Lemma select_element_counterexample :
  exists nd nm node,
    for_each (resolve_node (creator trace_undeclared_then_select) ["x"])
      (enumerate 0 (take 1 trace_undeclared_then_select)) (∅, [])
    = inr (nd, nm)
    /\ trace_undeclared_then_select !! 2 = Some node
    /\ node_kind node = SelectElement
    /\ args node = [ArgNode 0; ArgInt 0]
    /\ lookup_arg nd (ArgNode 0) = Some (ExternalInput 0)
    /\ create_graph (creator trace_undeclared_then_select) ["x"]
       = inl UnknownInput
    /\ create_graph (creator trace_undeclared_then_select) ["x"]
       <> inl SelectionOnNonModule.
Proof.
  do 3 eexists. split; [vm_compute; reflexivity|].
  split_and!; [reflexivity..|discriminate].
Qed.

(** C7, as the code has it. At a node of an unsupported kind: when the
    first loop reaches it, the [assert False] of line 53 fails; when an
    earlier node raises, that exception is the result; either way
    [create_graph] raises and returns no graph. *)
Theorem unsupported_node_fails self arg_names pre node post :
  graph (tracer self) = pre ++ node :: post ->
  node_kind node = Unsupported ->
  let before :=
    for_each (resolve_node self arg_names) (enumerate 0 pre) (∅, []) in
  (exists e, create_graph self arg_names = inl e)
  /\ (forall st, before = inr st ->
        create_graph self arg_names = inl UnsupportedOperation)
  /\ (forall e, before = inl e -> create_graph self arg_names = inl e).
Proof.
  intros Hg Hkind before.
  assert (Hreach : forall st, before = inr st ->
            create_graph self arg_names = inl UnsupportedOperation).
  { intros [nd nm] Hpre. eapply create_graph_error_at; [exact Hg|exact Hpre|].
    unfold resolve_node. by rewrite Hkind. }
  assert (Hearly : forall e, before = inl e ->
            create_graph self arg_names = inl e).
  { intros e Hpre. apply create_graph_resolve_error.
    rewrite (resolve_nodes_split _ _ _ _ _ Hg). fold before. by rewrite Hpre. }
  split_and!; [|done..].
  destruct before as [e|st] eqn:Hb; eauto.
Qed.

Lemma unsupported_node_fails_witness :
  create_graph (creator trace_unsupported) ["x"] = inl UnsupportedOperation.
Proof.
  refine (proj1 (proj2 (unsupported_node_fails
            (creator trace_unsupported) ["x"]
            (take 2 trace_unsupported)
            (mkNode "call_function" (TCallable "relu") [ArgNode 1])
            (drop 3 trace_unsupported) eq_refl eq_refl)) _ _).
  vm_compute. reflexivity.
Defined.

(** C7, as the claim words it, fails when an earlier node raises. In
    [return relu(x)] with no declared input name, the trace has the
    unsupported node [relu], but the placeholder before it raises the
    [ValueError] of [list.index] and line 53 is never reached. *)
Lemma unsupported_node_counterexample :
  (exists node, node ∈ trace_unknown_then_unsupported
                /\ node_kind node = Unsupported)
  /\ create_graph (creator trace_unknown_then_unsupported) [] = inl UnknownInput
  /\ create_graph (creator trace_unknown_then_unsupported) []
     <> inl UnsupportedOperation.
Proof.
  split_and!.
  - exists (mkNode "call_function" (TCallable "relu") [ArgNode 0]).
    split; [|reflexivity]. right. left.
  - reflexivity.
  - discriminate.
Qed.

(** ** [_call_trace] *)

(** C9. Whatever [tracer.trace] does to the interpreter state, and whether
    it returns a graph or raises, [_call_trace] runs it with both overrides
    installed, hands its outcome on unchanged, and leaves
    [RemoteModule.named_modules] and [RemoteModule.named_children] at the
    values they had when it was called. *)
Theorem call_trace_restores_override
    {Method Heap Exception FxGraph Tracer Module : Type}
    (trace : Tracer -> Module -> World -> (Exception + FxGraph) * World)
    (tracer : Tracer) (module : Module)
    (w : @World Method Heap) :
  let result := _call_trace trace tracer module w in
  RemoteModule_named_modules (snd result) = RemoteModule_named_modules w
  /\ RemoteModule_named_children (snd result) = RemoteModule_named_children w
  /\ fst result = fst (trace tracer module (overridden w))
  /\ heap (snd result) = heap (snd (trace tracer module (overridden w)))
  /\ RemoteModule_named_modules (overridden w) = nn_Module_named_modules w
  /\ RemoteModule_named_children (overridden w) = nn_Module_named_children w.
Proof.
  unfold _call_trace, try_finally, overridden. cbv zeta.
  destruct (trace tracer module _) as [[exc|g] w']; simpl; by split_and!.
Qed.

(** * Further properties *)

(** ** The second and third loops: when they run to their end *)

Lemma count_loop_resolved nd (l : list Argument) : forall mp0 mp,
  for_each (count_argument nd) l mp0 = inr mp ->
  Forall (fun arg => well_resolved nd arg = true) l.
Proof.
  induction l as [|arg l IH]; intros mp0 mp; [constructor|].
  simpl. intros H. apply bind_inr in H as (mp1 & Hstep & Hrest).
  constructor; [|by eapply IH].
  apply count_argument_inr in Hstep as (d & Hd & Hstep).
  unfold well_resolved. rewrite Hd.
  destruct d as [k|m|m a]; [done..|].
  by destruct Hstep as (z & -> & _).
Qed.

Lemma consistent_uses_snoc nd l arg :
  consistent_uses nd (l ++ [arg]) -> consistent_uses nd l.
Proof.
  intros [Hall Hmix]. split.
  - by apply Forall_app in Hall as [Hall _].
  - intros m a [Hw Hi]. apply (Hmix m a).
    rewrite omap_app, !elem_of_app. auto.
Qed.

Lemma consistent_uses_runs nd (l : list Argument) :
  consistent_uses nd l -> exists mp, for_each (count_argument nd) l ∅ = inr mp.
Proof.
  induction l as [|arg l IH] using rev_ind; intros Hc; [exists ∅; reflexivity|].
  destruct (IH (consistent_uses_snoc _ _ _ Hc)) as [mp1 Hl].
  rewrite for_each_app, Hl. simpl.
  destruct Hc as [Hall Hmix]. apply Forall_app in Hall as [_ Harg].
  rewrite Forall_singleton in Harg. rewrite omap_app in Hmix.
  unfold well_resolved in Harg. unfold count_argument, raise, ret.
  destruct (lookup_arg nd arg) as [d|] eqn:Hd; [|done].
  assert (Hlast : d ∈ omap (lookup_arg nd) l ++ omap (lookup_arg nd) [arg]).
  { apply elem_of_app. right. simpl. rewrite Hd. by left. }
  pose proof (fun m => count_loop_inv _ _ _ m Hl) as Hinv.
  destruct d as [k|m|m [n|z]]; [by eexists| | done |].
  - specialize (Hinv m). destruct (mp1 !! m) as [[c|]|]; [|by eexists..].
    destruct Hinv as (_ & _ & z & zs & Hs & _). exfalso.
    apply (Hmix m (ArgInt z)). split; [done|].
    apply elem_of_app. left. apply elem_of_selection_indices.
    rewrite Hs. by left.
  - specialize (Hinv m). destruct (mp1 !! m) as [[c|]|]; [by eexists| |by eexists].
    destruct Hinv as [Hw _]. exfalso.
    apply (Hmix m (ArgInt z)). split; [|done]. apply elem_of_app. by left.
Qed.

Lemma count_loop_consistent nd (l : list Argument) mp :
  for_each (count_argument nd) l ∅ = inr mp -> consistent_uses nd l.
Proof.
  intros H. split; [by eapply count_loop_resolved|].
  intros m a [Hw Hi]. pose proof (count_loop_inv _ _ _ m H) as Hinv.
  destruct (mp !! m) as [[c|]|].
  - by destruct Hinv as [Hno _].
  - destruct Hinv as [_ Hno]. by apply (Hno a).
  - destruct Hinv as [_ Hno]. by apply (Hno a).
Qed.

(** X1. The second loop runs to its end only if every argument of every
    recorded call is in [node_to_data] and no module is passed both whole
    and selected; and it does run to its end when, besides, every selection
    index among the arguments is an integer. *)
Theorem count_outputs_success_conditions nd nm :
  ((exists mp, count_outputs nd nm = inr mp) ->
   Forall (fun arg => is_Some (lookup_arg nd arg)) (call_arguments nm)
   /\ forall m a,
        ~ (WholeModuleOutput m ∈ argument_data nd nm
           /\ IndexedModuleOutput m a ∈ argument_data nd nm))
  /\ (consistent_uses nd (call_arguments nm) ->
      exists mp, count_outputs nd nm = inr mp).
Proof.
  rewrite count_outputs_flat. split.
  - intros [mp H]. destruct (count_loop_consistent _ _ _ H) as [Hall Hmix].
    split; [|exact Hmix].
    eapply Forall_impl; [exact Hall|]. intros arg. unfold well_resolved.
    by destruct (lookup_arg nd arg).
  - apply consistent_uses_runs.
Qed.

Lemma make_inputs_total nd (l : list Argument) :
  Forall (fun arg => well_resolved nd arg = true) l ->
  exists ds, make_inputs nd l = inr ds.
Proof.
  induction 1 as [|arg l Harg _ [ds IH]]; [exists []; reflexivity|].
  simpl. unfold well_resolved in Harg.
  destruct (lookup_arg nd arg) as [d|]; [|done].
  rewrite IH. by eexists.
Qed.

Lemma add_layers_total nd (mp : gmap nat (option Z))
    (nm : list (Node * nat)) : forall g,
  Forall (fun arg => well_resolved nd arg = true) (call_arguments nm) ->
  exists g',
    for_each
      (fun g entry =>
         let* inputs := make_inputs nd (args (fst entry)) in
         ret (add_layer g (snd entry) inputs (mjoin (mp !! snd entry))))
      nm g = inr g'.
Proof.
  induction nm as [|entry nm IH]; intros g Hall; [exists g; reflexivity|].
  unfold call_arguments in Hall. simpl in Hall.
  apply Forall_app in Hall as [Hentry Hrest].
  destruct (make_inputs_total _ _ Hentry) as [ds Hds].
  simpl. rewrite Hds. simpl. by apply IH.
Qed.

(** X2. The third loop never raises: once the first two loops have run to
    their end, [create_graph] returns a graph; the lookup of line 75 cannot
    fail, because line 58 has looked every argument up before. *)
Theorem create_graph_succeeds_iff self arg_names :
  (exists g, create_graph self arg_names = inr g)
  <-> exists nd nm mp, resolve_nodes self arg_names = inr (nd, nm)
        /\ count_outputs nd nm = inr mp.
Proof.
  split.
  - intros [g H]. apply create_graph_inr in H as (nd & nm & mp & H1 & H2 & _).
    by exists nd, nm, mp.
  - intros (nd & nm & mp & H1 & H2).
    assert (Hall : Forall (fun arg => well_resolved nd arg = true)
                     (call_arguments nm)).
    { rewrite count_outputs_flat in H2. by eapply count_loop_resolved. }
    destruct (add_layers_total nd mp nm [] Hall) as [g Hg].
    exists g. apply create_graph_inr. by exists nd, nm, mp.
Qed.

(** ** The second loop: the order of the arguments *)

Lemma omap_same_elements {A B : Type} (f : A -> option B) (l l' : list A) :
  (forall a, a ∈ l <-> a ∈ l') ->
  forall b, b ∈ omap f l <-> b ∈ omap f l'.
Proof.
  intros Hs b. rewrite !list_elem_of_omap.
  split; intros (a & Ha & Hb); exists a; (split; [by apply Hs|done]).
Qed.

Lemma consistent_uses_same_elements nd (l l' : list Argument) :
  (forall a, a ∈ l <-> a ∈ l') -> consistent_uses nd l -> consistent_uses nd l'.
Proof.
  intros Hs [Hall Hmix]. split.
  - rewrite Forall_forall in Hall. apply Forall_forall.
    intros a Ha. by apply Hall, Hs.
  - intros m a [Hw Hi]. apply (Hmix m a).
    split; by eapply omap_same_elements.
Qed.

Lemma foldl_max_same_elements (z z' : Z) (zs zs' : list Z) :
  (forall j, j ∈ z :: zs <-> j ∈ z' :: zs') ->
  foldl Z.max z zs = foldl Z.max z' zs'.
Proof.
  intros Hs.
  destruct (foldl_max_spec zs z) as [Hin Hle].
  destruct (foldl_max_spec zs' z') as [Hin' Hle'].
  apply Hs, Hle' in Hin. apply Hs, Hle in Hin'. lia.
Qed.

(** The entry of a module is determined by the set of data sources seen. *)
Lemma arity_inv_unique m ds ds' s s' :
  (forall d, d ∈ ds <-> d ∈ ds') ->
  arity_inv m ds s -> arity_inv m ds' s' -> s = s'.
Proof.
  intros Hp Hs Hs'.
  assert (Hsel : forall j, j ∈ selection_indices m ds
                           <-> j ∈ selection_indices m ds').
  { intros j. rewrite !elem_of_selection_indices. apply Hp. }
  destruct s as [[c|]|], s' as [[c'|]|]; simpl in Hs, Hs'; try done.
  - destruct Hs as (_ & _ & z & zs & Hz & ->).
    destruct Hs' as (_ & _ & z' & zs' & Hz' & ->).
    rewrite Hz, Hz' in Hsel. by rewrite (foldl_max_same_elements _ _ _ _ Hsel).
  - destruct Hs as [Hno _], Hs' as [Hw _]. by apply Hp in Hw.
  - destruct Hs as (_ & _ & z & zs & Hz & _), Hs' as [_ Hno].
    rewrite Hz, (selection_indices_nil _ _ Hno) in Hsel.
    destruct (not_elem_of_nil z). apply Hsel. by left.
  - destruct Hs as [Hw _], Hs' as (Hno & _). by apply Hp in Hw.
  - destruct Hs as [Hw _], Hs' as [Hno _]. by apply Hp in Hw.
  - destruct Hs as [_ Hno], Hs' as (_ & _ & z & zs & Hz & _).
    rewrite Hz, (selection_indices_nil _ _ Hno) in Hsel.
    destruct (not_elem_of_nil z). apply Hsel. by left.
  - destruct Hs as [Hno _], Hs' as [Hw _]. by apply Hp in Hw.
Qed.

(** X3. The second loop depends neither on the order in which it visits
    the arguments nor on how often it sees one: when the recorded calls of
    two runs are passed the same arguments taken as a set (calls visited in
    another order, arguments of a call swapped or repeated), a run that ends
    with a map of arities ends with the same map. *)
Theorem count_outputs_order_independent nd nm nm' mp :
  (forall arg, arg ∈ call_arguments nm <-> arg ∈ call_arguments nm') ->
  count_outputs nd nm = inr mp -> count_outputs nd nm' = inr mp.
Proof.
  rewrite !count_outputs_flat. intros Hp H.
  destruct (consistent_uses_runs nd (call_arguments nm')) as [mp' H'].
  { eapply consistent_uses_same_elements; [exact Hp|].
    by eapply count_loop_consistent. }
  rewrite H'. f_equal. apply map_eq. intros m.
  eapply arity_inv_unique; [|by apply count_loop_inv..].
  intros d. symmetry. by apply omap_same_elements.
Qed.

Lemma count_outputs_order_independent_witness :
  exists nd nm mp,
    resolve_nodes (creator trace_select_01) ["x"] = inr (nd, nm)
    /\ count_outputs nd nm = inr mp
    /\ count_outputs nd (reverse nm ++ nm) = inr mp.
Proof.
  destruct (resolve_nodes (creator trace_select_01) ["x"])
    as [e|[nd nm]] eqn:H1; [vm_compute in H1; discriminate|].
  destruct (count_outputs nd nm) as [e|mp] eqn:H2.
  { vm_compute in H1. injection H1 as <- <-. vm_compute in H2. discriminate. }
  exists nd, nm, mp. split_and!; [done..|].
  refine (count_outputs_order_independent nd nm (reverse nm ++ nm) mp _ H2).
  vm_compute in H1. injection H1 as <- <-.
  intros arg. vm_compute call_arguments.
  rewrite !elem_of_cons, !elem_of_nil. tauto.
Defined.

(** ** The first loop: the table it builds *)

Lemma resolve_loop_table self arg_names l : forall i nd nm nd' nm',
  for_each (resolve_node self arg_names) (enumerate i l) (nd, nm)
  = inr (nd', nm') ->
  (forall k, i <= k -> nd !! k = None) ->
  (forall k, i + length l <= k -> nd' !! k = None)
  /\ forall k node, l !! k = Some node ->
       node_entry self arg_names nd' (i + k) node (nd' !! (i + k)).
Proof.
  induction l as [|node l IH]; intros i nd nm nd' nm'.
  - intros [= <- <-] Hnd. split; [|done].
    intros k Hk. apply Hnd. simpl in Hk. lia.
  - rewrite enumerate_cons. simpl. intros H Hnd.
    apply bind_inr in H as ([nd1 nm1] & Hstep & Hrest).
    pose proof (resolve_loop_preserves _ _ _ _ _ _ _ _ Hrest) as Hkeep.
    apply resolve_node_inr in Hstep.
    assert (Hnd1 : forall k, S i <= k -> nd1 !! k = None).
    { intros k Hk. destruct (node_kind node); try done.
      - destruct Hstep as (? & _ & _ & -> & _).
        rewrite lookup_insert_ne by lia. apply Hnd. lia.
      - destruct Hstep as (? & ? & ? & ? & _ & _ & -> & _).
        rewrite lookup_insert_ne by lia. apply Hnd. lia.
      - destruct Hstep as (? & _ & -> & _).
        rewrite lookup_insert_ne by lia. apply Hnd. lia.
      - destruct Hstep as [-> _]. apply Hnd. lia. }
    destruct (IH _ _ _ _ _ Hrest Hnd1) as [Hout Hin]. split.
    + intros k Hk. apply Hout. lia.
    + intros [|k] node' Hk.
      2:{ replace (i + S k) with (S i + k) by lia. by apply Hin. }
      injection Hk as <-. rewrite Nat.add_0_r, (Hkeep i) by lia.
      unfold node_entry. destruct (node_kind node); try done.
      * destruct Hstep as (m & Hm & _ & -> & _).
        exists m. by rewrite lookup_insert_eq.
      * destruct Hstep as (a0 & a1 & rest & m & Hargs & Ha0 & -> & _).
        destruct a0 as [n|z]; [|discriminate]. simpl in Ha0.
        assert (n < i).
        { destruct (decide (n < i)); [done|].
          rewrite Hnd in Ha0 by lia. discriminate. }
        exists n, a1, rest, m. split_and!; [done..| |].
        -- rewrite (Hkeep n) by lia. by rewrite lookup_insert_ne by lia.
        -- by rewrite lookup_insert_eq.
      * destruct Hstep as (k & Hidx & -> & _).
        exists k. by rewrite lookup_insert_eq.
      * destruct Hstep as [-> _]. apply Hnd. lia.
Qed.

(** X4. When the first loop runs to its end, [node_to_data] is exactly the
    table of the nodes: at the position of a [call_module] node the module
    its target names, at the position of a selection the pair of the module
    of an earlier node and the index, at the position of a placeholder the
    position of its name in [arg_names]; an output node and every position
    beyond the trace have no entry. *)
Theorem node_to_data_is_the_table self arg_names nd nm :
  resolve_nodes self arg_names = inr (nd, nm) ->
  (forall k, length (graph (tracer self)) <= k -> nd !! k = None)
  /\ forall k node, graph (tracer self) !! k = Some node ->
       node_entry self arg_names nd k node (nd !! k).
Proof.
  intros H. unfold resolve_nodes in H.
  apply resolve_loop_table in H; [exact H|].
  intros k _. apply lookup_empty.
Qed.

Lemma node_to_data_is_the_table_witness :
  exists nd nm,
    resolve_nodes (creator trace_select_01) ["x"] = inr (nd, nm)
    /\ nd !! 5 = None /\ nd !! 6 = None.
Proof.
  destruct (resolve_nodes (creator trace_select_01) ["x"])
    as [e|[nd nm]] eqn:H1; [vm_compute in H1; discriminate|].
  exists nd, nm. split; [done|].
  destruct (node_to_data_is_the_table _ _ _ _ H1) as [Hout Hin]. split.
  - exact (Hin 5 (mkNode "output" (TStr "output") [ArgNode 4]) eq_refl).
  - apply Hout. simpl. lia.
Defined.

(** ** The graph that is returned *)

Lemma layer_entry nd mp nm g layer :
  add_layers nd mp nm = inr g -> layer ∈ g ->
  exists entry, entry ∈ nm /\ layer_of nd mp entry layer.
Proof.
  intros H Hl. apply add_layers_inr in H.
  apply list_elem_of_lookup in Hl as [k Hk].
  destruct (Forall2_lookup_r _ _ _ _ _ H Hk) as (entry & Hin & Hof).
  exists entry. split; [|done]. apply list_elem_of_lookup. by exists k.
Qed.

Lemma layer_input_argument nd mp nm g layer d :
  add_layers nd mp nm = inr g -> layer ∈ g -> d ∈ layer_inputs layer ->
  exists entry arg, entry ∈ nm /\ arg ∈ args (fst entry)
    /\ lookup_arg nd arg = Some d.
Proof.
  intros H Hl Hd. destruct (layer_entry _ _ _ _ _ H Hl) as (entry & Hin & Hof).
  destruct Hof as (_ & Hinputs & _). apply make_inputs_inr in Hinputs.
  apply list_elem_of_lookup in Hd as [j Hj].
  destruct (Forall2_lookup_r _ _ _ _ _ Hinputs Hj) as (arg & Harg & Hlook).
  exists entry, arg. split_and!; [done| |done].
  apply list_elem_of_lookup. by exists j.
Qed.

Lemma layer_input_in_argument_data nd mp nm g layer d :
  add_layers nd mp nm = inr g -> layer ∈ g -> d ∈ layer_inputs layer ->
  d ∈ argument_data nd nm.
Proof.
  intros H Hl Hd.
  destruct (layer_input_argument _ _ _ _ _ _ H Hl Hd)
    as (entry & arg & Hentry & Harg & Hlook).
  unfold argument_data, call_arguments. apply list_elem_of_omap.
  exists arg. split; [|done]. apply list_elem_of_In, in_concat.
  exists (args (fst entry)). split; [|by apply list_elem_of_In].
  apply (in_map (fun entry => args (fst entry))). by apply list_elem_of_In.
Qed.

(** X5. Every layer of a returned graph is a remote module of the store:
    the object exists and is an instance of [RemoteModule]. *)
Theorem layers_are_remote_modules self arg_names g layer :
  create_graph self arg_names = inr g -> layer ∈ g ->
  exists o, objects (tracer self) !! layer_module layer = Some o
    /\ is_RemoteModule o = true.
Proof.
  intros H Hl. apply create_graph_inr in H as (nd & nm & mp & H1 & _ & H3).
  destruct (layer_entry _ _ _ _ _ H3 Hl) as (entry & Hin & Hm & _).
  unfold resolve_nodes in H1.
  apply resolve_loop_calls in H1 as (calls & -> & _ & Hall).
  rewrite Forall_forall in Hall. destruct (Hall entry Hin) as [_ Hr].
  rewrite <- Hm in Hr. unfold isinstance_RemoteModule in Hr. simpl in Hr.
  destruct (objects (tracer self) !! layer_module layer) as [o|]; [|done].
  by exists o.
Qed.

Lemma layers_are_remote_modules_witness :
  exists o, sample_objects !! 2 = Some o /\ is_RemoteModule o = true.
Proof.
  refine (layers_are_remote_modules (creator trace_select_01) ["x"] _
            (mkLayer 2 [IndexedModuleOutput 1 (ArgInt 0);
                        IndexedModuleOutput 1 (ArgInt 1)] None)
            eq_refl _).
  right. left.
Defined.

(** X6. A returned graph has no dangling reference: a module whose result,
    whole or selected, is an input of some layer has a layer of its own. *)
Theorem layer_inputs_have_layers self arg_names g layer d m :
  create_graph self arg_names = inr g ->
  layer ∈ g -> d ∈ layer_inputs layer -> references m d = true ->
  exists layer', layer' ∈ g /\ layer_module layer' = m.
Proof.
  intros H Hl Hd Href. pose proof H as Hg.
  apply create_graph_inr in H as (nd & nm & mp & H1 & _ & H3).
  eapply referenced_module_has_layer; [exact Hg|exact H1| |exact Href].
  by eapply layer_input_in_argument_data.
Qed.

Lemma layer_inputs_have_layers_witness :
  exists g, create_graph (creator trace_select_01) ["x"] = inr g
    /\ exists layer', layer' ∈ g /\ layer_module layer' = 1.
Proof.
  eexists. split; [reflexivity|].
  refine (layer_inputs_have_layers (creator trace_select_01) ["x"] _
            (mkLayer 2 [IndexedModuleOutput 1 (ArgInt 0);
                        IndexedModuleOutput 1 (ArgInt 1)] None)
            (IndexedModuleOutput 1 (ArgInt 0)) 1 eq_refl _ _ eq_refl).
  - right. left.
  - left.
Defined.

(** X7. Every external input of a layer of a returned graph is a valid
    position of [arg_names]: it is the first position of the name of a
    placeholder of the trace. *)
Theorem external_inputs_are_declared self arg_names g layer i :
  create_graph self arg_names = inr g ->
  layer ∈ g -> ExternalInput i ∈ layer_inputs layer ->
  exists name node, node ∈ graph (tracer self)
    /\ op node = "placeholder" /\ target node = TStr name
    /\ arg_names !! i = Some name
    /\ forall j, j < i -> arg_names !! j <> Some name.
Proof.
  intros H Hl Hd. apply create_graph_inr in H as (nd & nm & mp & H1 & _ & H3).
  destruct (layer_input_argument _ _ _ _ _ _ H3 Hl Hd)
    as (entry & [n|z] & _ & _ & Hlook); [|discriminate]. simpl in Hlook.
  unfold resolve_nodes in H1.
  apply resolve_loop_table in H1 as [Hout Hin];
    [|intros k _; apply lookup_empty].
  destruct (graph (tracer self) !! n) as [node|] eqn:Hn.
  2:{ apply lookup_ge_None in Hn. rewrite Hout in Hlook by (simpl; lia).
      discriminate. }
  specialize (Hin n node Hn). simpl in Hin. rewrite Hlook in Hin.
  unfold node_entry in Hin. unfold node_kind in Hin.
  repeat case_decide; try done.
  - by destruct Hin as (m & _ & [=]).
  - by destruct Hin as (? & ? & ? & ? & _ & _ & _ & [=]).
  - destruct Hin as (k & Hidx & [= ->]). unfold index in Hidx.
    destruct (list_find _ arg_names) as [[k' name]|] eqn:Hf; [|discriminate].
    injection Hidx as ->.
    apply list_find_Some in Hf as (Hk & Htarget & Hleast).
    exists name, node. split_and!; [|done..|].
    + apply list_elem_of_lookup. by exists n.
    + intros j Hj Hname. apply (Hleast j name Hname Hj). done.
Qed.

Lemma external_inputs_are_declared_witness :
  exists name, ["w"; "x"] !! 1 = Some name.
Proof.
  destruct (external_inputs_are_declared (creator trace_select_01) ["w"; "x"] _
              (mkLayer 1 [ExternalInput 1] (Some 2%Z)) 1
              eq_refl ltac:(left) ltac:(left))
    as (name & _ & _ & _ & _ & Hname & _).
  by exists name.
Defined.

(** X8. A returned graph is consistent about arities: when the whole result
    of a module is an input of a layer, the layers of that module have arity
    [None]; when the element at an integer index of the result is, the
    layers of that module have a count above that index. *)
Theorem layer_inputs_fit_arities self arg_names g layer d m :
  create_graph self arg_names = inr g ->
  layer ∈ g -> d ∈ layer_inputs layer ->
  forall producer, producer ∈ g -> layer_module producer = m ->
    (d = WholeModuleOutput m -> layer_num_outputs producer = None)
    /\ forall z, d = IndexedModuleOutput m (ArgInt z) ->
         exists c, layer_num_outputs producer = Some c /\ (z < c)%Z.
Proof.
  intros H Hl Hd producer Hp <-.
  apply create_graph_inr in H as (nd & nm & mp & H1 & H2 & H3).
  pose proof (layer_input_in_argument_data _ _ _ _ _ _ H3 Hl Hd) as Hdata.
  rewrite (layer_arity _ _ _ _ _ H3 Hp).
  pose proof (count_outputs_inv _ _ _ (layer_module producer) H2) as Hinv.
  split.
  - intros ->. destruct (mp !! layer_module producer) as [[c|]|]; [|done..].
    by destruct Hinv as [Hno _].
  - intros z ->. destruct (mp !! layer_module producer) as [[c|]|].
    + destruct Hinv as (_ & _ & z0 & zs & Hs & ->).
      exists (1 + foldl Z.max z0 zs)%Z. split; [done|].
      destruct (foldl_max_spec zs z0) as [_ Hle].
      apply elem_of_selection_indices in Hdata. rewrite Hs in Hdata.
      apply Hle in Hdata. lia.
    + destruct Hinv as [_ Hno]. by destruct (Hno (ArgInt z)).
    + destruct Hinv as [_ Hno]. by destruct (Hno (ArgInt z)).
Qed.

Lemma layer_inputs_fit_arities_witness :
  exists c, Some 2%Z = Some c /\ (1 < c)%Z.
Proof.
  exact (proj2 (layer_inputs_fit_arities (creator trace_select_01) ["x"] _
                  (mkLayer 2 [IndexedModuleOutput 1 (ArgInt 0);
                              IndexedModuleOutput 1 (ArgInt 1)] None)
                  (IndexedModuleOutput 1 (ArgInt 1)) 1
                  eq_refl ltac:(right; left) ltac:(right; left)
                  (mkLayer 1 [ExternalInput 0] (Some 2%Z))
                  ltac:(left) eq_refl)
               1%Z eq_refl).
Defined.

(** X9. In a returned graph a layer has arity [None] exactly when no
    argument of any module call selects from the result of its module, and
    a count is always one more than the largest index selected, so it is
    positive exactly when some selected index is not negative. *)
Theorem arity_reflects_selection self arg_names g nd nm layer :
  create_graph self arg_names = inr g ->
  resolve_nodes self arg_names = inr (nd, nm) ->
  layer ∈ g ->
  let idxs := selection_indices (layer_module layer) (argument_data nd nm) in
  (layer_num_outputs layer = None <-> idxs = [])
  /\ forall c, layer_num_outputs layer = Some c ->
       (exists k, k ∈ idxs /\ (forall j, j ∈ idxs -> (j <= k)%Z)
                  /\ c = (k + 1)%Z)
       /\ ((0 < c)%Z <-> exists j, j ∈ idxs /\ (0 <= j)%Z).
Proof.
  intros H H1 Hl idxs.
  apply create_graph_inr in H as (nd0 & nm0 & mp & H1' & H2 & H3).
  rewrite H1 in H1'. injection H1' as <- <-.
  rewrite (layer_arity _ _ _ _ _ H3 Hl).
  pose proof (count_outputs_inv _ _ _ (layer_module layer) H2) as Hinv.
  fold idxs in Hinv.
  destruct (mp !! layer_module layer) as [[c|]|]; simpl.
  - destruct Hinv as (_ & _ & z & zs & Hs & ->).
    fold idxs in Hs. rewrite Hs.
    destruct (foldl_max_spec zs z) as [Hin Hle].
    split; [done|]. intros c [= <-]. split.
    + exists (foldl Z.max z zs). split_and!; [done..|lia].
    + split.
      * intros Hpos. exists (foldl Z.max z zs). split; [done|lia].
      * intros (j & Hj & Hnn). apply Hle in Hj. lia.
  - destruct Hinv as [_ Hno]. unfold idxs.
    rewrite (selection_indices_nil _ _ Hno). by split.
  - destruct Hinv as [_ Hno]. unfold idxs.
    rewrite (selection_indices_nil _ _ Hno). by split.
Qed.

Lemma arity_reflects_selection_witness :
  exists nd nm,
    resolve_nodes (creator trace_select_02) ["x"] = inr (nd, nm)
    /\ exists k, k ∈ selection_indices 1 (argument_data nd nm)
         /\ 3%Z = (k + 1)%Z.
Proof.
  destruct (resolve_nodes (creator trace_select_02) ["x"])
    as [e|[nd nm]] eqn:H1; [vm_compute in H1; discriminate|].
  exists nd, nm. split; [done|].
  destruct (proj2 (arity_reflects_selection (creator trace_select_02) ["x"] _
                     nd nm (mkLayer 1 [ExternalInput 0] (Some 3%Z))
                     eq_refl H1 ltac:(left)) 3%Z eq_refl)
    as [(k & Hk & _ & Hc) _].
  by exists k.
Defined.

(** X10. Arities belong to modules, not to calls: in a returned graph all
    the layers of one module carry the same arity. *)
Theorem layers_of_one_module_agree self arg_names g layer1 layer2 :
  create_graph self arg_names = inr g ->
  layer1 ∈ g -> layer2 ∈ g -> layer_module layer1 = layer_module layer2 ->
  layer_num_outputs layer1 = layer_num_outputs layer2.
Proof.
  intros H Hl1 Hl2 Hm. apply create_graph_inr in H as (nd & nm & mp & _ & _ & H3).
  rewrite (layer_arity _ _ _ _ _ H3 Hl1), (layer_arity _ _ _ _ _ H3 Hl2).
  by rewrite Hm.
Qed.

Lemma layers_of_one_module_agree_witness :
  layer_num_outputs (mkLayer 1 [ExternalInput 0] (Some 1%Z))
  = layer_num_outputs (mkLayer 1 [IndexedModuleOutput 1 (ArgInt 0)] (Some 1%Z)).
Proof.
  exact (layers_of_one_module_agree (creator trace_module_twice) ["x"] _ _ _
           eq_refl ltac:(left) ltac:(right; left) eq_refl).
Defined.

(** ** What the exceptions of the second loop mean *)

(** A loop that raises has run on a prefix and raised at the next element. *)
Lemma for_each_inl {A S : Type} (body : S -> A -> Result S) (l : list A) :
  forall s e, for_each body l s = inl e ->
  exists l1 a l2 s1, l = l1 ++ a :: l2
    /\ for_each body l1 s = inr s1 /\ body s1 a = inl e.
Proof.
  induction l as [|a l IH]; intros s e; [discriminate|].
  simpl. intros H. apply bind_inl in H as [H|(s' & Hs & H)].
  - by exists [], a, l, s.
  - destruct (IH _ _ H) as (l1 & b & l2 & s1 & -> & Hl1 & Hb).
    exists (a :: l1), b, l2, s1. split_and!; [done| |done].
    simpl. by rewrite Hs.
Qed.

(** [get_module] can only raise the [AttributeError] of a failed lookup. *)
Lemma get_module_errors self node e :
  get_module self node = inl e -> e = ModuleResolutionFailed.
Proof.
  unfold get_module, raise, ret. case_decide; [|discriminate].
  destruct (target node); [|by intros [= <-]..].
  destruct (for_each _ _ _) as [e'|m] eqn:Hwalk; simpl; [|discriminate].
  intros [= <-].
  apply for_each_inl in Hwalk as (l1 & t & l2 & m & _ & _ & Hget).
  unfold getattr, raise, ret in Hget.
  destruct (_ ≫= _); [discriminate|]. by injection Hget as <-.
Qed.

(** The exceptions of the first loop. *)
Lemma resolve_node_errors self arg_names st entry e :
  resolve_node self arg_names st entry = inl e ->
  e <> MixedOutputAccess /\ e <> KeyError /\ e <> TypeError.
Proof.
  destruct st as [nd nm], entry as [i node].
  unfold resolve_node, index, raise, ret.
  destruct (node_kind node).
  - destruct (get_module self node) as [e'|module] eqn:Hget; simpl.
    + intros [= <-]. by rewrite (get_module_errors _ _ _ Hget).
    + destruct (isinstance_RemoteModule self module), module;
        try discriminate; by intros [= <-].
  - destruct (args node) as [|a0 rest]; [by intros [= <-]|].
    destruct (lookup_arg nd a0) as [[k|d|d a]|]; try by intros [= <-].
    destruct rest; [by intros [= <-]|discriminate].
  - destruct (list_find _ arg_names) as [[k x]|]; simpl; [discriminate|].
    by intros [= <-].
  - discriminate.
  - by intros [= <-].
Qed.

Lemma resolve_nodes_errors self arg_names e :
  resolve_nodes self arg_names = inl e ->
  e <> MixedOutputAccess /\ e <> KeyError /\ e <> TypeError.
Proof.
  intros H. apply for_each_inl in H as (l1 & entry & l2 & st & _ & _ & H).
  by eapply resolve_node_errors.
Qed.

(** X11. [create_graph] raises the exception of the asserts of lines 62
    and 68 only when the first loop has run to its end and some module is
    really passed to module calls both whole and selected. *)
Theorem mixed_access_error_is_sound self arg_names :
  create_graph self arg_names = inl MixedOutputAccess ->
  exists nd nm m a, resolve_nodes self arg_names = inr (nd, nm)
    /\ WholeModuleOutput m ∈ argument_data nd nm
    /\ IndexedModuleOutput m a ∈ argument_data nd nm.
Proof.
  unfold create_graph. intros H.
  apply bind_inl in H as [H|([nd nm] & H1 & H)].
  { apply resolve_nodes_errors in H. by destruct H as [H _]. }
  apply bind_inl in H as [H|(mp & H2 & H)].
  2:{ exfalso. rewrite count_outputs_flat in H2.
      apply count_loop_resolved in H2.
      destruct (add_layers_total nd mp nm [] H2) as [g Hg].
      unfold add_layers in H. rewrite Hg in H. discriminate. }
  rewrite count_outputs_flat in H.
  apply for_each_inl in H as (l1 & arg & l2 & mp1 & Hargs & Hl1 & Hstep).
  assert (Hdata : argument_data nd nm
                  = omap (lookup_arg nd) l1
                    ++ omap (lookup_arg nd) [arg]
                    ++ omap (lookup_arg nd) l2).
  { unfold argument_data. rewrite Hargs.
    by rewrite omap_app, (omap_app _ [arg] l2). }
  pose proof (fun m => count_loop_inv _ _ _ m Hl1) as Hinv.
  revert Hstep. unfold count_argument, raise, ret.
  destruct (lookup_arg nd arg) as [[k|m|m a]|] eqn:Hd; try discriminate.
  - specialize (Hinv m).
    destruct (mp1 !! m) as [[c|]|]; [intros _|discriminate..].
    destruct Hinv as (_ & _ & z & zs & Hs & _).
    exists nd, nm, m, (ArgInt z). rewrite Hdata. split_and!; [done| |].
    + apply elem_of_app. right. apply elem_of_app. left.
      simpl. rewrite Hd. by left.
    + apply elem_of_app. left. apply elem_of_selection_indices.
      rewrite Hs. by left.
  - specialize (Hinv m).
    destruct (mp1 !! m) as [[c|]|]; [by destruct a|intros _|by destruct a].
    destruct Hinv as [Hw _].
    exists nd, nm, m, a. rewrite Hdata. split_and!; [done| |].
    + apply elem_of_app. by left.
    + apply elem_of_app. right. apply elem_of_app. left.
      simpl. rewrite Hd. by left.
Qed.

Lemma mixed_access_error_is_sound_witness :
  exists nd nm m a,
    resolve_nodes (creator trace_indexed_then_whole) ["x"] = inr (nd, nm)
    /\ WholeModuleOutput m ∈ argument_data nd nm
    /\ IndexedModuleOutput m a ∈ argument_data nd nm.
Proof.
  exact (mixed_access_error_is_sound (creator trace_indexed_then_whole) ["x"]
           eq_refl).
Defined.

(** X12. [create_graph] raises [KeyError] only when the first loop has run
    to its end and some argument of a module call is not in [node_to_data]:
    a constant, an output node, or a node outside the trace. *)
Theorem key_error_is_sound self arg_names :
  create_graph self arg_names = inl KeyError ->
  exists nd nm arg, resolve_nodes self arg_names = inr (nd, nm)
    /\ arg ∈ call_arguments nm /\ lookup_arg nd arg = None
    /\ match arg with
       | ArgInt _ => True
       | ArgNode n =>
           length (graph (tracer self)) <= n
           \/ exists node, graph (tracer self) !! n = Some node
                /\ node_kind node = Output
       end.
Proof.
  unfold create_graph. intros H.
  apply bind_inl in H as [H|([nd nm] & H1 & H)].
  { apply resolve_nodes_errors in H. by destruct H as (_ & H & _). }
  apply bind_inl in H as [H|(mp & H2 & H)].
  2:{ exfalso. rewrite count_outputs_flat in H2.
      apply count_loop_resolved in H2.
      destruct (add_layers_total nd mp nm [] H2) as [g Hg].
      unfold add_layers in H. rewrite Hg in H. discriminate. }
  rewrite count_outputs_flat in H.
  apply for_each_inl in H as (l1 & arg & l2 & mp1 & Hargs & _ & Hstep).
  assert (Hnone : lookup_arg nd arg = None).
  { revert Hstep. unfold count_argument, raise, ret.
    destruct (lookup_arg nd arg) as [[k|m|m a]|]; try done.
    - destruct (mp1 !! m) as [[c|]|]; discriminate.
    - destruct (mp1 !! m) as [[c|]|], a; discriminate. }
  exists nd, nm, arg. split_and!; [done| |done|].
  { rewrite Hargs. apply elem_of_app. right. by left. }
  destruct arg as [n|z]; [|done]. simpl in Hnone.
  unfold resolve_nodes in H1.
  apply resolve_loop_table in H1 as [_ Hin]; [|intros k _; apply lookup_empty].
  destruct (graph (tracer self) !! n) as [node|] eqn:Hn.
  2:{ left. by apply lookup_ge_None in Hn. }
  right. exists node. split; [done|].
  specialize (Hin n node Hn). simpl in Hin. rewrite Hnone in Hin.
  unfold node_entry in Hin. destruct (node_kind node); try done.
  - by destruct Hin as (? & _ & [=]).
  - by destruct Hin as (? & ? & ? & ? & _ & _ & _ & [=]).
  - by destruct Hin as (? & _ & [=]).
Qed.

Lemma key_error_is_sound_witness :
  exists nd nm arg,
    resolve_nodes (creator trace_constant_argument) ["x"] = inr (nd, nm)
    /\ arg ∈ call_arguments nm /\ lookup_arg nd arg = None.
Proof.
  destruct (key_error_is_sound (creator trace_constant_argument) ["x"] eq_refl)
    as (nd & nm & arg & H1 & Harg & Hnone & _).
  by exists nd, nm, arg.
Defined.

(** ** The output node *)

(** X13. A final output node adds nothing: [create_graph] gives the same
    result, graph or exception, with and without it. *)
Theorem trailing_output_is_ignored r objs (l : list Node) node arg_names :
  node_kind node = Output ->
  create_graph (mkGraphCreator (mkTracer r objs (l ++ [node]))) arg_names
  = create_graph (mkGraphCreator (mkTracer r objs l)) arg_names.
Proof.
  intros Hkind. unfold create_graph. f_equal.
  unfold resolve_nodes. simpl graph.
  rewrite enumerate_app, for_each_app.
  change (resolve_node (mkGraphCreator (mkTracer r objs (l ++ [node]))))
    with (resolve_node (mkGraphCreator (mkTracer r objs l))).
  destruct (for_each _ (enumerate 0 l) _) as [e|[nd nm]]; [done|].
  cbn [bind]. rewrite enumerate_cons. cbn [for_each enumerate length seq zip].
  unfold resolve_node at 1. rewrite Hkind. reflexivity.
Qed.

Lemma trailing_output_is_ignored_witness :
  create_graph (creator trace_select_01) ["x"]
  = create_graph (creator (take 5 trace_select_01)) ["x"].
Proof.
  exact (trailing_output_is_ignored 0 sample_objects (take 5 trace_select_01)
           (mkNode "output" (TStr "output") [ArgNode 4]) ["x"] eq_refl).
Defined.

(** ** [str.split] and [get_module] *)

Lemma split_nonempty sep s : split sep s <> [].
Proof.
  destruct s as [|c s]; simpl; [done|].
  destruct (Ascii.eqb c sep); [done|]. by destruct (split sep s).
Qed.

Lemma join_cons sep w l :
  l <> [] -> join sep (w :: l) = (w ++ sep ++ join sep l)%string.
Proof. by destruct l. Qed.

(** [split] cuts at every separator: the path [p.q] has the segments of
    [p] followed by those of [q]. *)
Lemma split_app sep p q :
  split sep (p ++ String sep q) = split sep p ++ split sep q.
Proof.
  induction p as [|c p IH]; simpl.
  - by rewrite Ascii.eqb_refl.
  - destruct (Ascii.eqb c sep); [by rewrite IH|].
    rewrite IH. pose proof (split_nonempty sep p).
    by destruct (split sep p).
Qed.

Lemma split_without_separator sep w :
  sep ∉ chars w -> split sep w = [w].
Proof.
  induction w as [|c w IH]; simpl; [done|]. intros Hno.
  apply not_elem_of_cons in Hno as [Hne Hno].
  destruct (Ascii.eqb_spec c sep) as [->|_]; [done|]. by rewrite IH.
Qed.

(** X14. [split] and [join] are inverse to each other: joining the
    segments of a path gives the path back, no segment contains the
    separator, and a non-empty list of segments without separator is what
    the joined path splits into. *)
Theorem split_join_round_trip sep :
  (forall s, join (String sep EmptyString) (split sep s) = s)
  /\ (forall s, Forall (fun w => sep ∉ chars w) (split sep s))
  /\ (forall l, l <> [] -> Forall (fun w => sep ∉ chars w) l ->
        split sep (join (String sep EmptyString) l) = l).
Proof.
  split_and!.
  - induction s as [|c s IH]; simpl; [done|].
    pose proof (split_nonempty sep s) as Hne.
    destruct (Ascii.eqb_spec c sep) as [->|_].
    + rewrite join_cons by done. simpl. by rewrite IH.
    + destruct (split sep s) as [|w ws]; [done|].
      destruct ws as [|w' ws]; [simpl in *; by rewrite IH|].
      rewrite join_cons by done. rewrite join_cons in IH by done.
      rewrite <- IH. reflexivity.
  - induction s as [|c s IH]; simpl.
    + constructor; [|constructor]. apply not_elem_of_nil.
    + destruct (Ascii.eqb_spec c sep) as [->|Hne].
      * constructor; [apply not_elem_of_nil|done].
      * pose proof (split_nonempty sep s).
        destruct (split sep s) as [|w ws]; [done|].
        inversion IH; subst. constructor; [|done]. simpl.
        by apply not_elem_of_cons.
  - induction l as [|w l IH]; [done|]. intros _ Hall.
    inversion Hall as [|? ? Hw Hl]; subst.
    destruct l as [|w' l].
    + simpl. by apply split_without_separator.
    + rewrite join_cons by done.
      change (String sep EmptyString ++ ?s)%string with (String sep s).
      rewrite split_app, (split_without_separator _ _ Hw), IH by done.
      done.
Qed.

(** X15. [get_module] follows a dotted path one attribute at a time:
    resolving [p.q] from the root is resolving [p] from the root and then
    [q] from the module found, and it raises when [p] does. *)
Theorem get_module_follows_the_path r objs g p q a :
  let node path := mkNode "call_module" (TStr path) a in
  get_module (mkGraphCreator (mkTracer r objs g)) (node (p ++ "." ++ q)%string)
  = match get_module (mkGraphCreator (mkTracer r objs g)) (node p) with
    | inr (Some m) => get_module (mkGraphCreator (mkTracer m objs g)) (node q)
    | other => other
    end.
Proof.
  intros node. unfold get_module. simpl.
  change ("." ++ q)%string with (String "." q).
  rewrite split_app, for_each_app.
  by destruct (for_each (getattr objs) (split "." p) r).
Qed.

Lemma split_join_round_trip_witness :
  split "." (join "." ["encoder"; "layers"; "0"]) = ["encoder"; "layers"; "0"].
Proof.
  refine (proj2 (proj2 (split_join_round_trip ".")) _ _ _); [done|].
  repeat constructor; vm_compute; intros H;
    repeat (apply elem_of_cons in H as [H|H]; [discriminate|]);
    by apply elem_of_nil in H.
Defined.

(** ** The first loop: entries are written once *)

(** X16. Later nodes never change what earlier nodes were resolved to: the
    first loop on a whole trace agrees with the first loop on any prefix of
    it, on every position of the prefix and on the calls recorded there. *)
Theorem resolution_of_a_prefix_is_kept self arg_names pre post nd nm nd' nm' :
  graph (tracer self) = pre ++ post ->
  for_each (resolve_node self arg_names) (enumerate 0 pre) (∅, [])
  = inr (nd, nm) ->
  resolve_nodes self arg_names = inr (nd', nm') ->
  (forall k, k < length pre -> nd' !! k = nd !! k)
  /\ exists calls, nm' = nm ++ calls.
Proof.
  intros Hg Hpre H. unfold resolve_nodes in H.
  rewrite Hg, enumerate_app, for_each_app, Hpre in H. cbn [bind] in H.
  split.
  - intros k Hk. eapply resolve_loop_preserves; [exact H|]. simpl. lia.
  - apply resolve_loop_calls in H as (calls & -> & _). by exists calls.
Qed.

Lemma resolution_of_a_prefix_is_kept_witness :
  exists nd nm,
    resolve_nodes (creator trace_select_01) ["x"] = inr (nd, nm)
    /\ nd !! 1 = Some (WholeModuleOutput 1).
Proof.
  destruct (resolve_nodes (creator trace_select_01) ["x"])
    as [e|[nd nm]] eqn:H1; [vm_compute in H1; discriminate|].
  exists nd, nm. split; [done|].
  destruct (for_each (resolve_node (creator trace_select_01) ["x"])
              (enumerate 0 (take 2 trace_select_01)) (∅, []))
    as [e|[nd0 nm0]] eqn:H0; [vm_compute in H0; discriminate|].
  destruct (resolution_of_a_prefix_is_kept (creator trace_select_01) ["x"]
              (take 2 trace_select_01) (drop 2 trace_select_01)
              nd0 nm0 nd nm eq_refl H0 H1) as [Hkeep _].
  rewrite (Hkeep 1) by (simpl; lia).
  vm_compute in H0. by injection H0 as <- <-.
Defined.

(** ** [_call_trace]: installing and restoring *)



(** ** What the exceptions of the first loop mean *)

Lemma resolve_loop_inl self arg_names l : forall i st e,
  for_each (resolve_node self arg_names) (enumerate i l) st = inl e ->
  exists pre node post st1, l = pre ++ node :: post
    /\ for_each (resolve_node self arg_names) (enumerate i pre) st = inr st1
    /\ resolve_node self arg_names st1 (i + length pre, node) = inl e.
Proof.
  induction l as [|node l IH]; intros i st e; [discriminate|].
  rewrite enumerate_cons. simpl. intros H.
  apply bind_inl in H as [H|(st' & Hs & H)].
  - exists [], node, l, st. rewrite Nat.add_0_r. by split_and!.
  - destruct (IH _ _ _ H) as (pre & node' & post & st1 & -> & Hpre & Hnode).
    exists (node :: pre), node', post, st1. split_and!; [done| |].
    + rewrite enumerate_cons. simpl. by rewrite Hs.
    + simpl. by rewrite Nat.add_succ_r.
Qed.

Lemma resolve_node_error_kind self arg_names st i node e :
  resolve_node self arg_names st (i, node) = inl e ->
  raising_kind e = Some (node_kind node).
Proof.
  destruct st as [nd nm]. unfold resolve_node, index, raise, ret.
  destruct (node_kind node).
  - destruct (get_module self node) as [e'|module] eqn:Hget; simpl.
    + intros [= <-]. by rewrite (get_module_errors _ _ _ Hget).
    + destruct (isinstance_RemoteModule self module), module;
        try discriminate; by intros [= <-].
  - destruct (args node) as [|a0 rest]; [by intros [= <-]|].
    destruct (lookup_arg nd a0) as [[k|d|d a]|]; try by intros [= <-].
    destruct rest; [by intros [= <-]|discriminate].
  - destruct (list_find _ arg_names) as [[k x]|]; simpl; [discriminate|].
    by intros [= <-].
  - discriminate.
  - by intros [= <-].
Qed.

(** X18. An exception of [create_graph] tells where it was raised. An
    exception of the first loop comes from the first node that fails, all
    nodes before it being resolved, and that node has the kind the
    exception belongs to; an exception of the second loop means that the
    first loop has run to its end. *)
Theorem exception_names_its_origin self arg_names e :
  create_graph self arg_names = inl e ->
  match raising_kind e with
  | Some kind =>
      exists pre node post st,
        graph (tracer self) = pre ++ node :: post
        /\ node_kind node = kind
        /\ for_each (resolve_node self arg_names) (enumerate 0 pre) (∅, [])
           = inr st
        /\ resolve_node self arg_names st (length pre, node) = inl e
  | None => exists nd nm, resolve_nodes self arg_names = inr (nd, nm)
  end.
Proof.
  unfold create_graph. intros H.
  apply bind_inl in H as [H|([nd nm] & H1 & H)].
  - apply resolve_loop_inl in H as (pre & node & post & st & Hg & Hpre & Hnode).
    rewrite (resolve_node_error_kind _ _ _ _ _ _ Hnode).
    by exists pre, node, post, st.
  - assert (Hkind : raising_kind e = None).
    { apply bind_inl in H as [H|(mp & H2 & H)].
      - rewrite count_outputs_flat in H.
        apply for_each_inl in H as (l1 & arg & l2 & mp1 & _ & _ & Hstep).
        revert Hstep. unfold count_argument, raise, ret.
        destruct (lookup_arg nd arg) as [[k|m|m a]|]; try discriminate.
        + destruct (mp1 !! m) as [[c|]|]; try discriminate. by intros [= <-].
        + destruct (mp1 !! m) as [[c|]|], a; try discriminate;
            by intros [= <-].
        + by intros [= <-].
      - exfalso. rewrite count_outputs_flat in H2.
        apply count_loop_resolved in H2.
        destruct (add_layers_total nd mp nm [] H2) as [g Hg].
        unfold add_layers in H. rewrite Hg in H. discriminate. }
    rewrite Hkind. by exists nd, nm.
Qed.

Lemma exception_names_its_origin_witness :
  exists pre node post,
    trace_unsupported = pre ++ node :: post /\ node_kind node = Unsupported.
Proof.
  destruct (exception_names_its_origin (creator trace_unsupported) ["x"]
              UnsupportedOperation eq_refl)
    as (pre & node & post & st & Hg & Hkind & _).
  by exists pre, node, post.
Defined.

(** X19. [create_graph] raises the [ValueError] of [list.index] only when
    the trace has a placeholder whose target is not a name of [arg_names]. *)
Theorem unknown_input_is_sound self arg_names :
  create_graph self arg_names = inl UnknownInput ->
  exists node, node ∈ graph (tracer self)
    /\ node_kind node = Placeholder
    /\ forall name, target node = TStr name -> name ∉ arg_names.
Proof.
  unfold create_graph. intros H.
  apply bind_inl in H as [H|([nd nm] & H1 & H)].
  - apply resolve_loop_inl in H
      as (pre & node & post & [nd nm] & Hg & _ & Hnode).
    pose proof (resolve_node_error_kind _ _ _ _ _ _ Hnode) as [= Hkind].
    exists node. split_and!; [|done|].
    + simpl in Hg. rewrite Hg. apply elem_of_app. right. by left.
    + intros name Htarget Hin. revert Hnode.
      unfold resolve_node. rewrite <- Hkind, Htarget.
      destruct (index_found _ _ Hin) as (k & -> & _). discriminate.
  - exfalso. apply bind_inl in H as [H|(mp & H2 & H)].
    + rewrite count_outputs_flat in H.
      apply for_each_inl in H as (l1 & arg & l2 & mp1 & _ & _ & Hstep).
      revert Hstep. unfold count_argument, raise, ret.
      destruct (lookup_arg nd arg) as [[k|m|m a]|]; try discriminate.
      * destruct (mp1 !! m) as [[c|]|]; discriminate.
      * destruct (mp1 !! m) as [[c|]|], a; discriminate.
    + rewrite count_outputs_flat in H2. apply count_loop_resolved in H2.
      destruct (add_layers_total nd mp nm [] H2) as [g Hg].
      unfold add_layers in H. rewrite Hg in H. discriminate.
Qed.

Lemma unknown_input_is_sound_witness :
  exists node, node ∈ trace_unknown_then_unsupported
    /\ node_kind node = Placeholder.
Proof.
  destruct (unknown_input_is_sound (creator trace_unknown_then_unsupported) []
              eq_refl) as (node & Hin & Hkind & _).
  by exists node.
Defined.

(** X20. At a [call_module] node that the first loop reaches: when its
    target path does not lead to an attribute, [create_graph] raises the
    [AttributeError] of the lookup; when it leads to a module that is not a
    [RemoteModule], the assert of line 40 fails; otherwise the node is
    resolved to the whole output of the module found and the call is
    recorded last in [node_to_module]. *)
Theorem module_call_resolution self arg_names pre node post nd nm :
  graph (tracer self) = pre ++ node :: post ->
  for_each (resolve_node self arg_names) (enumerate 0 pre) (∅, [])
  = inr (nd, nm) ->
  node_kind node = ModuleCall ->
  match get_module self node with
  | inl _ => create_graph self arg_names = inl ModuleResolutionFailed
  | inr module =>
      if isinstance_RemoteModule self module
      then exists m, module = Some m
             /\ resolve_node self arg_names (nd, nm) (length pre, node)
                = inr (<[length pre := WholeModuleOutput m]> nd,
                       nm ++ [(node, m)])
      else create_graph self arg_names = inl NotARemoteModule
  end.
Proof.
  intros Hg Hpre Hkind.
  destruct (get_module self node) as [e|module] eqn:Hget.
  - eapply create_graph_error_at; [exact Hg|exact Hpre|].
    unfold resolve_node. rewrite Hkind, Hget.
    by rewrite (get_module_errors _ _ _ Hget).
  - destruct (isinstance_RemoteModule self module) eqn:Hr.
    + destruct module as [m|]; [|done]. exists m. split; [done|].
      unfold resolve_node. rewrite Hkind, Hget. simpl. by rewrite Hr.
    + eapply create_graph_error_at; [exact Hg|exact Hpre|].
      unfold resolve_node. rewrite Hkind, Hget. simpl. by rewrite Hr.
Qed.

Lemma module_call_resolution_witness :
  create_graph
    (creator [mkNode "placeholder" (TStr "x") [];
              mkNode "call_module" (TStr "a.missing") [ArgNode 0]]) ["x"]
  = inl ModuleResolutionFailed.
Proof.
  refine (module_call_resolution
            (creator [mkNode "placeholder" (TStr "x") [];
                      mkNode "call_module" (TStr "a.missing") [ArgNode 0]])
            ["x"] [mkNode "placeholder" (TStr "x") []]
            (mkNode "call_module" (TStr "a.missing") [ArgNode 0]) []
            _ _ eq_refl _ eq_refl).
  vm_compute. reflexivity.
Defined.

Lemma count_outputs_success_conditions_witness :
  exists nd nm mp,
    resolve_nodes (creator trace_select_01) ["x"] = inr (nd, nm)
    /\ count_outputs nd nm = inr mp.
Proof.
  destruct (resolve_nodes (creator trace_select_01) ["x"])
    as [e|[nd nm]] eqn:H1; [vm_compute in H1; discriminate|].
  destruct (proj2 (count_outputs_success_conditions nd nm)) as [mp H2].
  - vm_compute in H1. injection H1 as <- <-. split.
    + repeat constructor.
    + intros m a [Hw _]. vm_compute in Hw.
      repeat (apply elem_of_cons in Hw as [Hw|Hw]; [discriminate|]).
      by apply elem_of_nil in Hw.
  - by exists nd, nm, mp.
Defined.

Lemma create_graph_succeeds_iff_witness :
  exists g, create_graph (creator trace_chain) ["x"] = inr g.
Proof.
  apply (proj2 (create_graph_succeeds_iff (creator trace_chain) ["x"])).
  destruct (resolve_nodes (creator trace_chain) ["x"])
    as [e|[nd nm]] eqn:H1; [vm_compute in H1; discriminate|].
  destruct (count_outputs nd nm) as [e|mp] eqn:H2.
  { vm_compute in H1. injection H1 as <- <-. vm_compute in H2. discriminate. }
  by exists nd, nm, mp.
Defined.
